(** * Koder: language definitions (src/support/Languages.cpp)

    A shallow embedding of [Languages]: the catalog of known languages
    ([LoadLanguages], [GetLanguageForExtension]) and the resolution of one
    language's lexer settings and style map over the four data directories
    ([ApplyLanguage], [_ApplyLanguage]).

    What the file does not contain is taken as follows.
    - yaml-cpp documents are the inductive [Node]; the invalid node that the
      const [operator[]] returns for a key it does not find is [None] of
      [option Node]. The conversions and exceptions follow yaml-cpp 0.7 and
      0.8: [as<T>()] on an invalid node throws [InvalidNode], on a node of
      the wrong kind [TypedBadConversion<T>]; [as<std::string>()] of a null
      node is the text "null"; indexing a scalar throws [BadSubscript];
      [LoadFile] throws [BadFile] for a file it cannot open and
      [ParserException] for text that is not YAML.
    - The text-to-int conversion of a scalar, the editor's replies, the
      platform's directories, the application name and the files on disk
      are the fields of [Host].
    - C++ [int] is [Z]; the model covers runs without signed overflow (which
      has no defined behaviour in the source language). *)

From Stdlib Require Import Ascii String.
From stdpp Require Import gmap strings list fin_maps.

Local Open Scope string_scope.
Local Open Scope list_scope.
Local Open Scope Z_scope.
Set Warnings "-register-all,-clear-no-such-hyp".

(** ** yaml-cpp: nodes, exceptions, conversions *)

Inductive Node :=
| Null
| Scalar (text : string)
| Sequence (items : list Node)
| Map (pairs : list (Node * Node)).

(** The C++ types a node is converted to with [as<T>()]. *)
Inductive Target := T_int | T_string | T_map_int_int | T_vector_string.

Inductive Exception :=
| BadFile
| ParserException
| InvalidNode
| BadSubscript
| TypedBadConversion (T : Target).

Inductive Result (A : Type) :=
| Ok (a : A)
| Throw (e : Exception).
Arguments Ok {A} a.
Arguments Throw {A} e.

#[export] Instance Result_ret : MRet Result := λ A a, Ok a.
#[export] Instance Result_bind : MBind Result := λ A B f r,
  match r with Ok a => f a | Throw e => Throw e end.

Definition is_Throw {A} (r : Result A) : Prop :=
  match r with Ok _ => False | Throw _ => True end.

#[export] Instance Target_eq_dec : EqDecision Target.
Proof. solve_decision. Defined.
#[export] Instance Exception_eq_dec : EqDecision Exception.
Proof. solve_decision. Defined.

(** What a file name holds. *)
Inductive FileContent :=
| Missing
| Malformed
| Document (root : Node).

(** ** The editor's command interface *)

Inductive EditorCall :=
| SCI_FREESUBSTYLES
| SCI_SETLEXER (lexerID : Z)
| SCI_SETLEXERLANGUAGE (lexerName : string)
| SCI_SETPROPERTY (name value : string)
| SCI_SETKEYWORDS (num : Z) (words : string)
| SCI_ALLOCATESUBSTYLES (substyleId : Z) (count : nat)
| SCI_SETIDENTIFIERS (style : Z) (idents : string)
| SetCommentLineToken (token : string)
| SetCommentBlockTokens (start finish : string).

(** What a run does to the outside, in order. *)
Inductive Event :=
| Sent (call : EditorCall)
| Opened (filename : string).

Definition calls_of (h : list Event) : list EditorCall :=
  omap (λ ev, match ev with Sent c => Some c | Opened _ => None end) h.

Inductive directory_which :=
| B_SYSTEM_DATA_DIRECTORY
| B_USER_DATA_DIRECTORY
| B_SYSTEM_NONPACKAGED_DATA_DIRECTORY
| B_USER_NONPACKAGED_DATA_DIRECTORY.

Definition BPath := string.

Definition Append (p : BPath) (leaf : string) : BPath := p +:+ "/" +:+ leaf.

(** The environment of the code. [editor_reply past c] is what the editor
    returns for [c] after the calls [past] (oldest first). *)
Record Host := {
  decode_int : string → option Z;
  editor_reply : list EditorCall → EditorCall → Z;
  find_directory : directory_which → BPath;
  gAppName : string;
  disk : string → FileContent
}.

Section yaml.
Context (host : Host).

(** [YAML::LoadFile]. *)
Definition YAML_LoadFile (filename : string) : Result Node :=
  match disk host filename with
  | Missing => Throw BadFile
  | Malformed => Throw ParserException
  | Document root => Ok root
  end.

(** [as<int>()] *)
Definition as_int (n : option Node) : Result Z :=
  match n with
  | None => Throw InvalidNode
  | Some (Scalar text) =>
      match decode_int host text with
      | Some z => Ok z
      | None => Throw (TypedBadConversion T_int)
      end
  | Some _ => Throw (TypedBadConversion T_int)
  end.

(** [as<std::string>()] *)
Definition as_string (n : option Node) : Result string :=
  match n with
  | None => Throw InvalidNode
  | Some Null => Ok "null"
  | Some (Scalar text) => Ok text
  | Some _ => Throw (TypedBadConversion T_string)
  end.

(** [convert<std::map<int, int>>::decode]: [rhs[key] = value] per pair. *)
Fixpoint decode_map (pairs : list (Node * Node)) (rhs : gmap Z Z)
    : Result (gmap Z Z) :=
  match pairs with
  | [] => Ok rhs
  | (k, v) :: rest =>
      value ← as_int (Some v);
      key ← as_int (Some k);
      decode_map rest (<[key := value]> rhs)
  end.

(** [as<std::map<int, int>>()] *)
Definition as_map_int_int (n : option Node) : Result (gmap Z Z) :=
  match n with
  | None => Throw InvalidNode
  | Some (Map pairs) => decode_map pairs ∅
  | Some _ => Throw (TypedBadConversion T_map_int_int)
  end.

(** [convert<std::vector<std::string>>::decode]: [push_back] per item. *)
Fixpoint decode_vector (items : list Node) (rhs : list string)
    : Result (list string) :=
  match items with
  | [] => Ok rhs
  | item :: rest =>
      s ← as_string (Some item);
      decode_vector rest (rhs ++ [s])
  end.

(** [as<std::vector<std::string>>()] *)
Definition as_vector_string (n : option Node) : Result (list string) :=
  match n with
  | None => Throw InvalidNode
  | Some (Sequence items) => decode_vector items []
  | Some _ => Throw (TypedBadConversion T_vector_string)
  end.

(** A map key compared with a string key: the key converts to a string
    equal to it. *)
Definition equals_string (k : Node) (key : string) : bool :=
  match k with Scalar text => String.eqb text key | _ => false end.

(** The const [operator[]] with a string key: the value of the first pair whose key
    equals [key]; nothing on a node without pairs; a scalar cannot be
    indexed. *)
Definition subscript (n : option Node) (key : string) : Result (option Node) :=
  match n with
  | None => Throw InvalidNode
  | Some (Map pairs) =>
      Ok (snd <$> List.find (λ kv, equals_string kv.1 key) pairs)
  | Some (Scalar _) => Throw BadSubscript
  | Some (Sequence _) | Some Null => Ok None
  end.

Definition equals_int (k : Node) (key : Z) : bool :=
  match as_int (Some k) with Ok z => Z.eqb z key | Throw _ => false end.

(** The const [operator[]] with an [int] key: the item at a position of a sequence. *)
Definition subscript_int (n : option Node) (key : Z) : Result (option Node) :=
  match n with
  | None => Throw InvalidNode
  | Some (Sequence items) =>
      Ok (if decide (0 ≤ key) then items !! Z.to_nat key else None)
  | Some (Map pairs) =>
      Ok (snd <$> List.find (λ kv, equals_int kv.1 key) pairs)
  | Some (Scalar _) => Throw BadSubscript
  | Some Null => Ok None
  end.

(** What a range-for over a node yields: for a sequence the items (their
    [first] and [second] invalid), for a map the pairs (the value itself
    invalid), for anything else nothing. *)
Record iterator_value := {
  node : option Node;
  first : option Node;
  second : option Node
}.

Definition iterate (n : option Node) : list iterator_value :=
  match n with
  | Some (Sequence items) =>
      (λ item, {| node := Some item; first := None; second := None |}) <$> items
  | Some (Map pairs) =>
      (λ kv, {| node := None; first := Some kv.1; second := Some kv.2 |}) <$> pairs
  | _ => []
  end.
End yaml.

(** ** Effects

    A run of editor code reads the events so far and returns its result with
    the events it adds; an exception ends it, and what was done before
    stays done. *)

Definition EditorM (A : Type) : Type := list Event → Result A * list Event.

#[export] Instance EditorM_ret : MRet EditorM := λ A a _, (Ok a, []).
#[export] Instance EditorM_bind : MBind EditorM := λ A B f m h,
  match m h with
  | (Ok a, out) => let '(r, out') := f a (h ++ out) in (r, out ++ out')
  | (Throw e, out) => (Throw e, out)
  end.

(** The process-wide catalog: the static members of [Languages]. *)
Record Catalog := {
  sLanguages : list string;
  sMenuItems : gmap string string;
  sExtensions : gmap string string
}.

Definition CatalogM (A : Type) : Type := Catalog → Result A * Catalog.

#[export] Instance CatalogM_ret : MRet CatalogM := λ A a c, (Ok a, c).
#[export] Instance CatalogM_bind : MBind CatalogM := λ A B f m c,
  match m c with
  | (Ok a, c') => f a c'
  | (Throw e, c') => (Throw e, c')
  end.

(** An assignment to the statics. *)
Definition update (f : Catalog → Catalog) : CatalogM unit := λ c, (Ok (), f c).

(** Code that may throw and catch: [lift] runs a computation that has no
    other effect, [try_catch body catches handler] is
    [try { body } catch (E&) { handler }] for the exceptions [catches]
    accepts. *)
Class MTry (M : Type → Type) := {
  lift : ∀ {A}, Result A → M A;
  try_catch : ∀ {A}, M A → (Exception → bool) → M A → M A
}.

#[export] Instance EditorM_try : MTry EditorM := {|
  lift A r := λ _, (r, []);
  try_catch A body catches handler := λ h,
    match body h with
    | (Throw e, out) =>
        if catches e
        then let '(r, out') := handler (h ++ out) in (r, out ++ out')
        else (Throw e, out)
    | (Ok a, out) => (Ok a, out)
    end
|}.

#[export] Instance CatalogM_try : MTry CatalogM := {|
  lift A r := λ c, (r, c);
  try_catch A body catches handler := λ c,
    match body c with
    | (Throw e, c') => if catches e then handler c' else (Throw e, c')
    | (Ok a, c') => (Ok a, c')
    end
|}.

Section loops.
Context {M : Type → Type} `{!MBind M, !MRet M}.

(** A range-for whose body updates the local variables [st]. *)
Fixpoint for_each {A St} (body : St → A → M St) (l : list A) (st : St) : M St :=
  match l with
  | [] => mret st
  | x :: rest => st' ← body st x; for_each body rest st'
  end.
End loops.

(** ** std::map *)

(** [m.emplace(k, v)]: nothing happens when [k] has a value. *)
Definition emplace `{Countable K} {V} (k : K) (v : V) (m : gmap K V) : gmap K V :=
  match m !! k with
  | Some _ => m
  | None => <[k := v]> m
  end.

(** [m[k]]: the value of [k], which is first given [dflt] when it has none. *)
Definition map_index `{Countable K} {V} (dflt : V) (k : K) (m : gmap K V)
    : V * gmap K V :=
  match m !! k with
  | Some v => (v, m)
  | None => (dflt, <[k := dflt]> m)
  end.

(** ** Languages *)

Section Languages.
Context (host : Host).

(** The editor executes [call]: [SendMessage] for the [SCI_] messages, a
    method call for the comment tokens. *)
Definition perform (call : EditorCall) : EditorM Z :=
  λ h, (Ok (editor_reply host (calls_of h) call), [Sent call]).

(** [YAML::LoadFile] as editor code sees it. *)
Definition LoadFile (filename : string) : EditorM Node :=
  λ _, (YAML_LoadFile host filename, [Opened filename]).

Section DoInAllDataDirectories.
Context {M : Type → Type} `{!MBind M, !MRet M} {St : Type}.

(** [func] runs once per data directory, from system to user, packaged
    to non-packaged; [st] stands for what the closure captures by
    reference. *)
Definition DoInAllDataDirectories (func : BPath → St → M St) (st : St) : M St :=
  st ← func (find_directory host B_SYSTEM_DATA_DIRECTORY) st;
  st ← func (find_directory host B_USER_DATA_DIRECTORY) st;
  st ← func (find_directory host B_SYSTEM_NONPACKAGED_DATA_DIRECTORY) st;
  func (find_directory host B_USER_NONPACKAGED_DATA_DIRECTORY) st.
End DoInAllDataDirectories.

(** *** GetLanguageForExtension, lines 58-67: the returned flag, [lang],
    and the catalog afterwards. *)
Definition GetLanguageForExtension (ext : string) (c : Catalog)
    : bool * string * Catalog :=
  let lang := "text" in
  if bool_decide (is_Some (sExtensions c !! ext)) then
    let '(lang, exts) := map_index "" ext (sExtensions c) in
    (true, lang,
     {| sLanguages := sLanguages c; sMenuItems := sMenuItems c;
        sExtensions := exts |})
  else (false, lang, c).

(** *** _ApplyLanguage, lines 118-197 *)

Definition language_file (lang : string) (path : BPath) : string :=
  Append (Append (Append path (gAppName host)) "languages") lang +:+ ".yaml".

(** Lines 126-133. *)
Definition select_lexer (language : Node) : EditorM unit :=
  try_catch
    (lexerID ← lift (subscript (Some language) "lexer" ≫= as_int host);
     perform (SCI_SETLEXER lexerID);;
     mret ())
    (λ e, bool_decide (e = TypedBadConversion T_int))
    (lexerName ← lift (subscript (Some language) "lexer" ≫= as_string);
     perform (SCI_SETLEXERLANGUAGE lexerName);;
     mret ()).

(** Lines 135-139. *)
Definition set_properties (language : Node) : EditorM unit :=
  properties ← lift (subscript (Some language) "properties");
  for_each (λ _ property,
      name ← lift (as_string (first property));
      value ← lift (as_string (second property));
      perform (SCI_SETPROPERTY name value);;
      mret ())
    (iterate properties) ().

(** Lines 141-145. *)
Definition set_keywords (language : Node) : EditorM unit :=
  keywords ← lift (subscript (Some language) "keywords");
  for_each (λ _ keyword,
      num ← lift (as_int host (first keyword));
      words ← lift (as_string (second keyword));
      perform (SCI_SETKEYWORDS num words);;
      mret ())
    (iterate keywords) ().

(** Lines 159-163: the loop over one identifier group; the state is [i]. *)
Definition set_identifiers (start : Z) (items : list Node) : EditorM Z :=
  for_each (λ i idents,
      text ← lift (as_string (Some idents));
      perform (SCI_SETIDENTIFIERS (start + i) text);;
      mret (i + 1))
    items 0.

(** Lines 150-164: the body of the loop over [identifiers]. *)
Definition allocate_group (substyleStartMap : gmap Z Z) (id : Node * Node)
    : EditorM (gmap Z Z) :=
  match id.2 with
  | Sequence items =>
      substyleId ← lift (as_int host (Some id.1));
      start ← perform (SCI_ALLOCATESUBSTYLES substyleId (length items));
      set_identifiers start items;;
      mret (emplace substyleId start substyleStartMap)
  | _ => mret substyleStartMap
  end.

(** Lines 147-165; the result is [substyleStartMap]. *)
Definition allocate_identifiers (language : Node) : EditorM (gmap Z Z) :=
  identifiers ← lift (subscript (Some language) "identifiers");
  match identifiers with
  | Some (Map pairs) => for_each allocate_group pairs ∅
  | _ => mret ∅
  end.

(** Lines 167-176. The two arguments of [SetCommentBlockTokens] are taken
    left to right. *)
Definition register_comments (language : Node) : EditorM unit :=
  comments ← lift (subscript (Some language) "comments");
  match comments with
  | Some _ =>
      line ← lift (subscript comments "line");
      match line with
      | Some _ =>
          token ← lift (as_string line);
          perform (SetCommentLineToken token);;
          mret ()
      | None => mret ()
      end;;
      block ← lift (subscript comments "block");
      match block with
      | Some (Sequence _) =>
          start ← lift (subscript_int host block 0 ≫= as_string);
          finish ← lift (subscript_int host block 1 ≫= as_string);
          perform (SetCommentBlockTokens start finish);;
          mret ()
      | _ => mret ()
      end
  | None => mret ()
  end.

(** Lines 191-192: the body of the loop over one substyle group. The state
    is [substyleStartMap] (which [operator[]] may extend), [styleMap], [i]. *)
Definition add_substyle (key : Node) (st : gmap Z Z * gmap Z Z * Z) (styleId : Node)
    : Result (gmap Z Z * gmap Z Z * Z) :=
  let '(substyleStartMap, styleMap, i) := st in
  substyleId ← as_int host (Some key);
  let '(substyleStart, substyleStartMap) :=
    map_index 0 substyleId substyleStartMap in
  value ← as_int host (Some styleId);
  mret (substyleStartMap, emplace (substyleStart + i) value styleMap, i + 1).

(** Lines 189-193. *)
Definition add_substyles (key : Node) (items : list Node)
    (st : gmap Z Z * gmap Z Z) : Result (gmap Z Z * gmap Z Z * Z) :=
  for_each (add_substyle key) items (st, 0).

(** Lines 185-194: the body of the loop over [substyles]. *)
Definition add_group (st : gmap Z Z * gmap Z Z) (id : Node * Node)
    : Result (gmap Z Z * gmap Z Z) :=
  match id.2 with
  | Sequence items =>
      '(substyleStartMap, styleMap, _) ← add_substyles id.1 items st;
      mret (substyleStartMap, styleMap)
  | _ => mret st
  end.

(** Lines 178-182: the [styles] of the document. *)
Definition direct_styles (language : Node) : Result (gmap Z Z) :=
  styles ← subscript (Some language) "styles";
  match styles with
  | Some _ => as_map_int_int host styles
  | None => mret ∅
  end.

(** Lines 178-196. *)
Definition build_styleMap (language : Node) (substyleStartMap : gmap Z Z)
    : Result (gmap Z Z) :=
  styleMap ← direct_styles language;
  substyles ← subscript (Some language) "substyles";
  match substyles with
  | Some (Map pairs) =>
      '(_, styleMap) ← for_each add_group pairs (substyleStartMap, styleMap);
      mret styleMap
  | _ => mret styleMap
  end.

(** Lines 126-196: what [_ApplyLanguage] does with the loaded document. *)
Definition apply_document (language : Node) : EditorM (gmap Z Z) :=
  select_lexer language;;
  set_properties language;;
  set_keywords language;;
  substyleStartMap ← allocate_identifiers language;
  register_comments language;;
  lift (build_styleMap language substyleStartMap).

Definition _ApplyLanguage (lang : string) (path : BPath) : EditorM (gmap Z Z) :=
  language ← LoadFile (language_file lang path);
  apply_document language.

(** *** ApplyLanguage, lines 81-94 *)

(** The closure: [m.merge(styleMapping)] leaves in [m] its own value for a
    key both maps have, and the swap makes [m] the new [styleMapping]. *)
Definition apply_layer (lang : string) (path : BPath) (styleMapping : gmap Z Z)
    : EditorM (gmap Z Z) :=
  try_catch
    (m ← _ApplyLanguage lang path;
     mret (m ∪ styleMapping))
    (λ e, bool_decide (e = BadFile))
    (mret styleMapping).

Definition ApplyLanguage (lang : string) : EditorM (gmap Z Z) :=
  perform SCI_FREESUBSTYLES;;
  DoInAllDataDirectories (apply_layer lang) ∅.

(** *** LoadLanguages, lines 200-229 *)

Definition catalog_file (path : BPath) : string :=
  Append (Append path (gAppName host)) "languages" +:+ ".yaml".

(** Lines 222-227: the updates of the statics for one entry. *)
Definition register_language (name menuitem : string) (extensions : list string)
    (c : Catalog) : Catalog :=
  let exts := foldl (λ m extension, <[extension := name]> m) (sExtensions c)
                extensions in
  {| sLanguages := if bool_decide (name ∈ sLanguages c)
                   then sLanguages c
                   else sLanguages c ++ [name];
     sMenuItems := <[name := menuitem]> (sMenuItems c);
     sExtensions := exts |}.

(** Lines 218-228: the body of the loop over the document. *)
Definition load_entry (_ : unit) (language : iterator_value) : CatalogM unit :=
  name ← lift (as_string (first language));
  menuitem ← lift (subscript (second language) "name" ≫= as_string);
  extensions ← lift (subscript (second language) "extensions" ≫= as_vector_string);
  update (register_language name menuitem extensions).

Definition _LoadLanguages (path : BPath) : CatalogM unit :=
  languages ← lift (YAML_LoadFile host (catalog_file path));
  for_each load_entry (iterate (Some languages)) ().

Definition load_layer (path : BPath) (_ : unit) : CatalogM unit :=
  try_catch (_LoadLanguages path) (λ e, bool_decide (e = BadFile)) (mret ()).

Definition LoadLanguages : CatalogM unit :=
  DoInAllDataDirectories load_layer ().
End Languages.


(** ** Languages: the rest of the file *)

From stdpp Require Import sorting.

Local Open Scope string_scope.
Local Open Scope list_scope.
Local Open Scope Z_scope.

(** The order of [std::string]'s [operator<=]: lexicographic on the bytes
    taken as unsigned, a proper prefix first. *)
Definition string_le (s1 s2 : string) : Prop := String.leb s1 s2 = true.

#[export] Instance string_le_dec : RelDecision string_le :=
  λ s1 s2, decide (String.leb s1 s2 = true).

(** *** SortAlphabetically, lines 70-74. [std::sort] leaves the algorithm
    open; a merge sort stands for it, and since only one arrangement of a
    list of strings is ascending the result does not depend on the
    choice. *)
Definition SortAlphabetically (c : Catalog) : Catalog :=
  {| sLanguages := merge_sort string_le (sLanguages c);
     sMenuItems := sMenuItems c;
     sExtensions := sExtensions c |}.

(** *** LoadExternalLexers, lines 232-264 *)

(** What [GetNextEntry] yields: whether the entry is a directory, and its
    path. *)
Record BEntry := {
  IsDirectory : bool;
  GetPath : BPath
}.

(** The directories of the platform: [None] for a path whose [BDirectory]
    does not pass [InitCheck], otherwise the entries [GetNextEntry] returns
    until it first fails. *)
Definition Storage := BPath → option (list BEntry).

(** Code that only sends [SCI_LOADLEXERLIBRARY]: its result and the paths
    sent, in order. *)
Definition LoaderM (A : Type) : Type := A * list BPath.

#[export] Instance LoaderM_ret : MRet LoaderM := λ A a, (a, []).
#[export] Instance LoaderM_bind : MBind LoaderM := λ A B f m,
  let '(b, out') := f m.1 in (b, m.2 ++ out').

Definition SCI_LOADLEXERLIBRARY (lexerPath : BPath) : LoaderM unit :=
  ((), [lexerPath]).

Section LoadExternalLexers.
Context (host : Host) (storage : Storage).

(** Lines 256-263: the body of the loop over the entries. *)
Definition load_lexer (_ : unit) (lexerEntry : BEntry) : LoaderM unit :=
  if IsDirectory lexerEntry then mret ()
  else SCI_LOADLEXERLIBRARY (GetPath lexerEntry).

Definition _LoadExternalLexers (path : BPath) : LoaderM unit :=
  match storage (Append (Append path "scintilla") "lexers") with
  | None => mret ()
  | Some entries => for_each load_lexer entries ()
  end.

Definition LoadExternalLexers : LoaderM unit :=
  DoInAllDataDirectories host (λ path _, _LoadExternalLexers path) ().
End LoadExternalLexers.

(** * Vocabulary of the statements *)

(** Every event a run of [m] adds satisfies [P], whatever came before. *)
Definition emits {A} (P : Event → Prop) (m : EditorM A) : Prop :=
  ∀ h, Forall P (m h).2.

(** The directories in the order [DoInAllDataDirectories] visits them:
    lowest priority first. *)
Definition data_directories (host : Host) : list BPath :=
  find_directory host <$>
    [B_SYSTEM_DATA_DIRECTORY; B_USER_DATA_DIRECTORY;
     B_SYSTEM_NONPACKAGED_DATA_DIRECTORY; B_USER_NONPACKAGED_DATA_DIRECTORY].

(** ** The catalog documents as lists of entries *)

(** One entry as lines 219-221 read it: language id, display name,
    extensions. *)
Definition decode_entry (language : iterator_value)
    : Result (string * string * list string) :=
  name ← as_string (first language);
  menuitem ← subscript (second language) "name" ≫= as_string;
  extensions ← subscript (second language) "extensions" ≫= as_vector_string;
  mret (name, menuitem, extensions).

Definition entries_of (languages : Node) : list (string * string * list string) :=
  omap (λ language,
      match decode_entry language with Ok e => Some e | Throw _ => None end)
    (iterate (Some languages)).

(** The update of the statics for a decoded entry. *)
Definition register_entry (c : Catalog) (e : string * string * list string) : Catalog :=
  register_language e.1.1 e.1.2 e.2 c.

(** The entries of the catalog document of one layer; none when there is no
    document. *)
Definition layer_entries (host : Host) (path : BPath)
    : list (string * string * list string) :=
  match disk host (catalog_file host path) with
  | Document languages => entries_of languages
  | _ => []
  end.

(** All entries in the order [LoadLanguages] meets them. *)
Definition catalog_entries (host : Host) : list (string * string * list string) :=
  data_directories host ≫= layer_entries host.

(** Every layer either has no catalog document or one whose entries all
    have the shape the schema asks for. *)
Definition catalog_wellformed (host : Host) : Prop :=
  ∀ path, path ∈ data_directories host →
    match disk host (catalog_file host path) with
    | Missing => True
    | Malformed => False
    | Document languages =>
        Forall (λ language, ¬ is_Throw (decode_entry language))
          (iterate (Some languages))
    end.

(** The language of the last entry that lists [ext]. *)
Definition last_claim (ext : string) (entries : list (string * string * list string))
    : option string :=
  (λ e, e.1.1) <$> last (filter (λ e, ext ∈ e.2) entries).

(** The display name of the last entry for the language [id]. *)
Definition last_name (id : string) (entries : list (string * string * list string))
    : option string :=
  (λ e, e.1.2) <$> last (filter (λ e, e.1.1 = id) entries).

(** The distinct elements of a list in the order of their first appearance. *)
Fixpoint nub (l : list string) : list string :=
  match l with
  | [] => []
  | x :: rest => x :: filter (λ y, y ≠ x) (nub rest)
  end.

(** ** The layers of a resolution *)

(** The style maps [_ApplyLanguage] returns for the directories [paths],
    in order, when the events so far are [h]: a layer whose run throws
    returns none. *)
Fixpoint layer_styleMaps (host : Host) (lang : string) (paths : list BPath)
    (h : list Event) : list (gmap Z Z) :=
  match paths with
  | [] => []
  | path :: rest =>
      match _ApplyLanguage host lang path h with
      | (Ok m, out) => m :: layer_styleMaps host lang rest (h ++ out)
      | (Throw _, out) => layer_styleMaps host lang rest (h ++ out)
      end
  end.

(** The right-biased merge of maps given lowest priority first. *)
Definition merge_layers (maps : list (gmap Z Z)) : gmap Z Z :=
  foldl (λ acc m, m ∪ acc) ∅ maps.

(** ** Editor calls *)

Definition lexer_call (ev : Event) : Prop :=
  match ev with
  | Sent (SCI_SETLEXER _) | Sent (SCI_SETLEXERLANGUAGE _) => True
  | _ => False
  end.

Definition block_call (ev : Event) : Prop :=
  match ev with
  | Sent (SetCommentBlockTokens _ _) => True
  | _ => False
  end.

(** Lines 126-165: what [_ApplyLanguage] does with the document before it
    comes to the comments; the result is [substyleStartMap]. *)
Definition before_comments (host : Host) (language : Node) : EditorM (gmap Z Z) :=
  select_lexer host language;;
  set_properties host language;;
  set_keywords host language;;
  allocate_identifiers host language.

(** The editor's reply to the first [SCI_ALLOCATESUBSTYLES] for the lexical
    class [c] among the events [out] that follow [h]. *)
Fixpoint first_allocation (host : Host) (c : Z) (h out : list Event) : option Z :=
  match out with
  | [] => None
  | ev :: rest =>
      match ev with
      | Sent (SCI_ALLOCATESUBSTYLES c' n) =>
          if decide (c' = c)
          then Some (editor_reply host (calls_of h) (SCI_ALLOCATESUBSTYLES c' n))
          else first_allocation host c (h ++ [ev]) rest
      | _ => first_allocation host c (h ++ [ev]) rest
      end
  end.

(** An editor for which [SCI_FREESUBSTYLES] discards what was allocated: its
    replies depend on the calls since the last reset only. *)
Definition replies_since_reset (host : Host) : Prop :=
  ∀ past since call,
    editor_reply host (past ++ SCI_FREESUBSTYLES :: since) call =
    editor_reply host (SCI_FREESUBSTYLES :: since) call.

(** Two histories that end with the same events since a reset. *)
Definition same_since_reset (h1 h2 : list Event) : Prop :=
  ∃ p1 p2 since,
    h1 = p1 ++ Sent SCI_FREESUBSTYLES :: since ∧
    h2 = p2 ++ Sent SCI_FREESUBSTYLES :: since.

(** A run that is the same after any two such histories. *)
Definition stable {A} (m : EditorM A) : Prop :=
  ∀ h1 h2, same_since_reset h1 h2 → m h1 = m h2.

(** What registering [comments.line] sends: the token when the key is there
    and converts to a string. *)
Definition line_events (line : option Node) : list Event :=
  match line with
  | Some _ =>
      match as_string line with
      | Ok token => [Sent (SetCommentLineToken token)]
      | Throw _ => []
      end
  | None => []
  end.

(** ** Sub-styles *)

Definition allocation (ev : Event) : Prop :=
  match ev with
  | Sent (SCI_ALLOCATESUBSTYLES _ _) => True
  | _ => False
  end.

(** The start the loop over [substyles] uses for the lexical class [c]:
    [substyleStartMap[c]], which is [0] when the class has no entry. *)
Definition start_of (substyleStartMap : gmap Z Z) (c : Z) : Z :=
  default 0 (substyleStartMap !! c).

(** The entry [id] of [substyles] addresses the key [k] when the starts are
    given by [start]: it is a sequence for a class [c], and [k] is
    [start c] plus a position in it. *)
Definition addresses (host : Host) (start : Z → Z) (id : Node * Node) (k : Z) : Prop :=
  ∃ items c (j : nat),
    id.2 = Sequence items ∧ as_int host (Some id.1) = Ok c ∧
    (j < length items)%nat ∧ k = start c + Z.of_nat j.

(** ** More vocabulary *)

(** Every extension is indexed to a known language, and the known languages
    are those with a display name. *)
Definition catalog_consistent (c : Catalog) : Prop :=
  (∀ ext id, sExtensions c !! ext = Some id → id ∈ sLanguages c) ∧
  (∀ id, id ∈ sLanguages c ↔ is_Some (sMenuItems c !! id)).

(** The files a run opened, in order. *)
Definition opened (out : list Event) : list string :=
  omap (λ ev, match ev with Opened filename => Some filename | Sent _ => None end) out.

(** Every exception a run of [m] may end with satisfies [Q]. *)
Definition raises {A} (Q : Exception → Prop) (m : EditorM A) : Prop :=
  ∀ h e, (m h).1 = Throw e → Q e.

(** The exceptions of conversions and lookups on a loaded document. *)
Definition representation (e : Exception) : Prop :=
  e ≠ BadFile ∧ e ≠ ParserException.

(** The messages a list of decoded settings is sent with. *)
Definition property_messages (settings : list (string * string)) : list Event :=
  (λ s, Sent (SCI_SETPROPERTY s.1 s.2)) <$> settings.

Definition keyword_messages (settings : list (Z * string)) : list Event :=
  (λ s, Sent (SCI_SETKEYWORDS s.1 s.2)) <$> settings.

(** The messages that bind the identifier lists of a group to the sub-style
    ids from [start] on. *)
Definition identifier_messages (start : Z) (texts : list string) : list Event :=
  imap (λ j text, Sent (SCI_SETIDENTIFIERS (start + Z.of_nat j) text)) texts.

(** The lexers of one layer: the entries of its [scintilla/lexers] that are
    not directories. *)
Definition layer_lexers (storage : Storage) (path : BPath) : list BPath :=
  match storage (Append (Append path "scintilla") "lexers") with
  | None => []
  | Some entries => GetPath <$> filter (λ e, IsDirectory e = false) entries
  end.

(** The allocations a run asked for: lexical class and count, in order. *)
Definition allocations (out : list Event) : list (Z * nat) :=
  omap (λ ev, match ev with
              | Sent (SCI_ALLOCATESUBSTYLES c n) => Some (c, n)
              | _ => None
              end) out.

(** The allocation an entry of [identifiers] asks for: none unless its value
    is a sequence. *)
Definition group_request (host : Host) (id : Node * Node) : option (Z * nat) :=
  match id.2 with
  | Sequence items =>
      match as_int host (Some id.1) with
      | Ok c => Some (c, length items)
      | Throw _ => None
      end
  | _ => None
  end.

(** * Example hosts

    A host for the concrete runs below: decimal scalars, an editor that hands
    out sub-styles from 128 upwards and starts over after
    [SCI_FREESUBSTYLES], and a disk given as a list of files. *)

Definition digit (a : ascii) : option Z :=
  let n := Z.of_nat (nat_of_ascii a) in
  if bool_decide (48 ≤ n ≤ 57) then Some (n - 48) else None.

Fixpoint digits (s : string) (acc : Z) : option Z :=
  match s with
  | EmptyString => Some acc
  | String a rest => d ← digit a; digits rest (10 * acc + d)
  end.

Definition decimal (s : string) : option Z :=
  match s with
  | EmptyString => None
  | _ => digits s 0
  end.

(** Sub-styles handed out since the last reset. *)
Fixpoint allocated (past : list EditorCall) (n : Z) : Z :=
  match past with
  | [] => n
  | SCI_FREESUBSTYLES :: rest => allocated rest 0
  | SCI_ALLOCATESUBSTYLES _ k :: rest => allocated rest (n + Z.of_nat k)
  | _ :: rest => allocated rest n
  end.

Definition contiguous_reply (past : list EditorCall) (call : EditorCall) : Z :=
  match call with
  | SCI_ALLOCATESUBSTYLES _ _ => 128 + allocated past 0
  | _ => 0
  end.

Definition haiku_directories (which : directory_which) : BPath :=
  match which with
  | B_SYSTEM_DATA_DIRECTORY => "/system/data"
  | B_USER_DATA_DIRECTORY => "/home/config/data"
  | B_SYSTEM_NONPACKAGED_DATA_DIRECTORY => "/system/non-packaged/data"
  | B_USER_NONPACKAGED_DATA_DIRECTORY => "/home/config/non-packaged/data"
  end.

Definition files (l : list (string * FileContent)) (filename : string) : FileContent :=
  match List.find (λ f, String.eqb f.1 filename) l with
  | Some f => f.2
  | None => Missing
  end.

Definition host_with (l : list (string * FileContent)) : Host :=
  {| decode_int := decimal;
     editor_reply := contiguous_reply;
     find_directory := haiku_directories;
     gAppName := "Koder";
     disk := files l |}.

Definition empty_catalog : Catalog :=
  {| sLanguages := []; sMenuItems := ∅; sExtensions := ∅ |}.

(** A system layer whose documents are not valid YAML. *)
Definition malformed_host : Host :=
  host_with [("/system/data/Koder/languages/cpp.yaml", Malformed);
             ("/system/data/Koder/languages.yaml", Malformed)].

Definition str (text : string) : Node := Scalar text.

(** A C++ definition whose block comment lists the opening token only. *)
Definition short_block_document : Node :=
  Map [(str "lexer", str "3");
       (str "comments", Map [(str "line", str "//");
                             (str "block", Sequence [str "/*"])]);
       (str "styles", Map [(str "1", str "11")])].

Definition short_block_host : Host :=
  host_with [("/system/data/Koder/languages/cpp.yaml", Document short_block_document)].

(** The second layer of the specification's scenario. *)
Definition scenario_document : Node :=
  Map [(str "lexer", str "cpp");
       (str "styles", Map [(str "1", str "99")]);
       (str "identifiers", Map [(str "20", Sequence [str "a"; str "b"])]);
       (str "substyles", Map [(str "20", Sequence [str "50"; str "51"])])].

Definition scenario_host : Host :=
  host_with [("/system/data/Koder/languages/cpp.yaml", Document scenario_document)].

(** The same with a direct style for the first allocated sub-style id. *)
Definition colliding_document : Node :=
  Map [(str "lexer", str "cpp");
       (str "styles", Map [(str "1", str "99"); (str "128", str "7")]);
       (str "identifiers", Map [(str "20", Sequence [str "a"; str "b"])]);
       (str "substyles", Map [(str "20", Sequence [str "50"; str "51"])])].

Definition colliding_host : Host :=
  host_with [("/system/data/Koder/languages/cpp.yaml", Document colliding_document)].

(** A substyle group for a class without an identifier group. *)
Definition unanchored_document : Node :=
  Map [(str "lexer", str "3");
       (str "substyles", Map [(str "20", Sequence [str "50"; str "51"])])].

Definition unanchored_host : Host :=
  host_with [("/system/data/Koder/languages/cpp.yaml", Document unanchored_document)].

(** The specification's scenario: a system layer and a user layer. *)
Definition base_document : Node :=
  Map [(str "lexer", str "1");
       (str "styles", Map [(str "0", str "10"); (str "1", str "11")])].

Definition layered_host : Host :=
  host_with [("/system/data/Koder/languages/cpp.yaml", Document base_document);
             ("/home/config/data/Koder/languages/cpp.yaml", Document scenario_document)].

(** A definition with both comment tokens. *)
Definition commented_document : Node :=
  Map [(str "lexer", str "3");
       (str "comments", Map [(str "line", str "//");
                             (str "block", Sequence [str "/*"; str "*/"])])].

Definition commented_host : Host :=
  host_with [("/system/data/Koder/languages/cpp.yaml", Document commented_document)].

(** Two catalog documents: the second claims the extension [h] again and
    renames [cpp]. *)
Definition system_catalog : Node :=
  Map [(str "cpp", Map [(str "name", str "C++");
                        (str "extensions", Sequence [str "cpp"; str "h"])]);
       (str "python", Map [(str "name", str "Python");
                           (str "extensions", Sequence [str "py"])])].

Definition user_catalog : Node :=
  Map [(str "c", Map [(str "name", str "C");
                      (str "extensions", Sequence [str "c"; str "h"])]);
       (str "cpp", Map [(str "name", str "C++ (user)");
                        (str "extensions", Sequence [str "cc"])])].

Definition catalog_host : Host :=
  host_with [("/system/data/Koder/languages.yaml", Document system_catalog);
             ("/system/non-packaged/data/Koder/languages.yaml", Document user_catalog)].

(** A definition with lexer properties and two keyword sets. *)
Definition settings_document : Node :=
  Map [(str "lexer", str "3");
       (str "properties", Map [(str "fold", str "1"); (str "fold.comment", str "1")]);
       (str "keywords", Map [(str "0", str "if else while"); (str "1", str "int char")])].

(** The scenario's user layer alone. *)
Definition layered_single : Host :=
  host_with [("/home/config/data/Koder/languages/cpp.yaml", Document scenario_document)].
(** * Reasoning about runs *)

Lemma bind_run {A B} (m : EditorM A) (f : A → EditorM B) h :
  (m ≫= f) h =
  match m h with
  | (Ok a, out) => let '(r, out') := f a (h ++ out) in (r, out ++ out')
  | (Throw e, out) => (Throw e, out)
  end.
Proof. reflexivity. Qed.

Lemma bind_Ok_inv {A B} (m : EditorM A) (f : A → EditorM B) h b out :
  (m ≫= f) h = (Ok b, out) →
  ∃ a o1 o2, m h = (Ok a, o1) ∧ f a (h ++ o1) = (Ok b, o2) ∧ out = o1 ++ o2.
Proof.
  rewrite bind_run. destruct (m h) as [[a|e] o1]; [|discriminate].
  destruct (f a (h ++ o1)) as [r o2] eqn:Hf. intros [= -> <-].
  by exists a, o1, o2.
Qed.

Lemma bind_Ok_run {A B} (m : EditorM A) (f : A → EditorM B) h a o1 :
  m h = (Ok a, o1) →
  (m ≫= f) h = ((f a (h ++ o1)).1, o1 ++ (f a (h ++ o1)).2).
Proof. intros Hm. rewrite bind_run, Hm. by destruct (f a (h ++ o1)). Qed.

Lemma bind_Throw_run {A B} (m : EditorM A) (f : A → EditorM B) h e o1 :
  m h = (Throw e, o1) → (m ≫= f) h = (Throw e, o1).
Proof. intros Hm. by rewrite bind_run, Hm. Qed.

Lemma result_bind_Ok_inv {A B} (r : Result A) (f : A → Result B) b :
  r ≫= f = Ok b → ∃ a, r = Ok a ∧ f a = Ok b.
Proof. destruct r as [a|e]; [eauto | discriminate]. Qed.

Lemma lift_run {A} (r : Result A) h : (lift r : EditorM A) h = (r, []).
Proof. reflexivity. Qed.

Lemma bind_lift_Ok {A B} (r : Result A) (f : A → EditorM B) a h :
  r = Ok a → (lift r ≫= f) h = f a h.
Proof.
  intros ->. rewrite bind_run, lift_run, app_nil_r. by destruct (f a h).
Qed.

Lemma bind_lift_Throw {A B} (r : Result A) (f : A → EditorM B) e h :
  r = Throw e → (lift r ≫= f) h = (Throw e, []).
Proof. intros ->. by rewrite bind_run, lift_run. Qed.

(** ** What a run may emit *)

Section emits.
Context (host : Host) (P : Event → Prop).

Lemma emits_ret {A} (a : A) : emits P (mret a).
Proof. intros h. constructor. Qed.

Lemma emits_lift {A} (r : Result A) : emits P (lift r).
Proof. intros h. constructor. Qed.

Lemma emits_bind {A B} (m : EditorM A) (f : A → EditorM B) :
  emits P m → (∀ a, emits P (f a)) → emits P (m ≫= f).
Proof.
  intros Hm Hf h. rewrite bind_run. specialize (Hm h).
  destruct (m h) as [[a|e] o1]; simpl in *; [|done].
  specialize (Hf a (h ++ o1)). destruct (f a (h ++ o1)) as [r o2]; simpl in *.
  by apply Forall_app.
Qed.

Lemma emits_perform call : P (Sent call) → emits P (perform host call).
Proof. intros HP h. simpl. by repeat constructor. Qed.

Lemma emits_LoadFile filename : P (Opened filename) → emits P (LoadFile host filename).
Proof. intros HP h. simpl. by repeat constructor. Qed.

Lemma emits_try_catch {A} (body handler : EditorM A) catches :
  emits P body → emits P handler → emits P (try_catch body catches handler).
Proof.
  intros Hb Hh h. simpl. specialize (Hb h).
  destruct (body h) as [[a|e] o1]; simpl in *; [done|].
  destruct (catches e); [|done].
  specialize (Hh (h ++ o1)). destruct (handler (h ++ o1)) as [r o2]; simpl in *.
  by apply Forall_app.
Qed.

Lemma emits_for_each {A St} (body : St → A → EditorM St) l st :
  (∀ st x, emits P (body st x)) → emits P (for_each body l st).
Proof.
  intros Hb. revert st. induction l as [|x l IH]; intros st; simpl.
  - apply emits_ret.
  - apply emits_bind; [apply Hb | intros st'; apply IH].
Qed.
End emits.

Ltac emits_step :=
  first
    [ apply emits_ret
    | apply emits_lift
    | apply emits_perform
    | apply emits_LoadFile
    | apply emits_for_each; intros
    | apply emits_try_catch
    | apply emits_bind; [|intros] ].

Section phases.
Context (host : Host) (P : Event → Prop).

Lemma emits_select_lexer language :
  (∀ n, P (Sent (SCI_SETLEXER n))) → (∀ s, P (Sent (SCI_SETLEXERLANGUAGE s))) →
  emits P (select_lexer host language).
Proof. intros ??. unfold select_lexer. repeat emits_step; done. Qed.

Lemma emits_set_properties language :
  (∀ n v, P (Sent (SCI_SETPROPERTY n v))) → emits P (set_properties host language).
Proof. intros ?. unfold set_properties. repeat emits_step; done. Qed.

Lemma emits_set_keywords language :
  (∀ n w, P (Sent (SCI_SETKEYWORDS n w))) → emits P (set_keywords host language).
Proof. intros ?. unfold set_keywords. repeat emits_step; done. Qed.

Lemma emits_set_identifiers start items :
  (∀ s t, P (Sent (SCI_SETIDENTIFIERS s t))) →
  emits P (set_identifiers host start items).
Proof. intros ?. unfold set_identifiers. repeat emits_step; done. Qed.

Lemma emits_allocate_identifiers language :
  (∀ c n, P (Sent (SCI_ALLOCATESUBSTYLES c n))) →
  (∀ s t, P (Sent (SCI_SETIDENTIFIERS s t))) →
  emits P (allocate_identifiers host language).
Proof.
  intros ??. unfold allocate_identifiers. emits_step; [emits_step|].
  repeat case_match; try emits_step.
  unfold allocate_group. repeat case_match; repeat emits_step; done.
Qed.

Lemma emits_register_comments language :
  (∀ t, P (Sent (SetCommentLineToken t))) →
  (∀ s e, P (Sent (SetCommentBlockTokens s e))) →
  emits P (register_comments host language).
Proof.
  intros ??. unfold register_comments. emits_step; [emits_step|].
  repeat (first [emits_step | case_match]); done.
Qed.
End phases.

(** ** Runs that forget what came before the last reset *)

Lemma same_since_reset_app h1 h2 out :
  same_since_reset h1 h2 → same_since_reset (h1 ++ out) (h2 ++ out).
Proof.
  intros (p1 & p2 & since & -> & ->). exists p1, p2, (since ++ out).
  by rewrite <-!app_assoc.
Qed.

Section stable.
Context (host : Host) (Hreset : replies_since_reset host).

Lemma stable_ret {A} (a : A) : stable (mret a : EditorM A).
Proof. by intros h1 h2 _. Qed.

Lemma stable_lift {A} (r : Result A) : stable (lift r : EditorM A).
Proof. by intros h1 h2 _. Qed.

Lemma stable_bind {A B} (m : EditorM A) (f : A → EditorM B) :
  stable m → (∀ a, stable (f a)) → stable (m ≫= f).
Proof.
  intros Hm Hf h1 h2 Hsame. rewrite !bind_run, (Hm h1 h2 Hsame).
  destruct (m h2) as [[a|e] out]; [|done].
  by rewrite (Hf a (h1 ++ out) (h2 ++ out)) by by apply same_since_reset_app.
Qed.

Lemma stable_perform call : stable (perform host call).
Proof.
  intros h1 h2 (p1 & p2 & since & -> & ->). unfold perform, calls_of.
  rewrite !omap_app. cbn [omap list_omap]. by rewrite !Hreset.
Qed.

Lemma stable_LoadFile filename : stable (LoadFile host filename).
Proof. by intros h1 h2 _. Qed.

Lemma stable_try_catch {A} (body handler : EditorM A) catches :
  stable body → stable handler → stable (try_catch body catches handler).
Proof.
  intros Hb Hh h1 h2 Hsame. cbn [try_catch EditorM_try]. rewrite (Hb h1 h2 Hsame).
  destruct (body h2) as [[a|e] out]; [done|]. destruct (catches e); [|done].
  by rewrite (Hh (h1 ++ out) (h2 ++ out)) by by apply same_since_reset_app.
Qed.

Lemma stable_for_each {A St} (body : St → A → EditorM St) l st :
  (∀ st x, stable (body st x)) → stable (for_each body l st).
Proof.
  intros Hb. revert st. induction l as [|x l IH]; intros st; cbn [for_each].
  - apply stable_ret.
  - apply stable_bind; [apply Hb | intros st'; apply IH].
Qed.
End stable.

Ltac stable_step :=
  first
    [ apply stable_ret
    | apply stable_lift
    | apply stable_perform; assumption
    | apply stable_LoadFile
    | apply stable_for_each; intros
    | apply stable_try_catch
    | apply stable_bind; [|intros] ].

Lemma stable_apply_document host language :
  replies_since_reset host → stable (apply_document host language).
Proof.
  intros Hreset. unfold apply_document, select_lexer, set_properties, set_keywords,
    allocate_identifiers, register_comments.
  repeat (first [stable_step | case_match]).
  unfold allocate_group, set_identifiers. repeat (first [stable_step | case_match]).
Qed.

Lemma stable_apply_layer host lang path styleMapping :
  replies_since_reset host → stable (apply_layer host lang path styleMapping).
Proof.
  intros Hreset. unfold apply_layer.
  apply stable_try_catch; [|apply stable_ret].
  apply stable_bind; [|intros; apply stable_ret].
  unfold _ApplyLanguage. apply stable_bind; [apply stable_LoadFile|].
  intros language. by apply stable_apply_document.
Qed.

(** * The catalog *)

(** C6. [GetLanguageForExtension ext] returns [true] with the language the
    extension index maps [ext] to when there is one, and [false] with the
    fallback ["text"] when there is none; the catalog is the same
    afterwards in both cases. *)
Theorem GetLanguageForExtension_lookup (ext : string) (c : Catalog) :
  GetLanguageForExtension ext c =
  match sExtensions c !! ext with
  | Some lang => (true, lang, c)
  | None => (false, "text", c)
  end.
Proof.
  unfold GetLanguageForExtension, map_index.
  destruct (sExtensions c !! ext) as [lang|] eqn:Hext.
  - rewrite bool_decide_eq_true_2 by eauto. by destruct c.
  - rewrite bool_decide_eq_false_2; [done|]. by intros [? [=]].
Qed.

(** ** LoadLanguages *)

Lemma load_entry_run language c :
  load_entry () language c =
  match decode_entry language with
  | Ok e => (Ok (), register_entry c e)
  | Throw e => (Throw e, c)
  end.
Proof.
  unfold load_entry, decode_entry, register_entry.
  destruct (as_string (first language)) as [name|]; [|done].
  cbn -[subscript as_vector_string as_string register_language].
  destruct (subscript (second language) "name" ≫= as_string) as [menuitem|]; [|done].
  cbn -[subscript as_vector_string as_string register_language].
  by destruct (subscript (second language) "extensions" ≫= as_vector_string).
Qed.

Lemma for_each_load_entry languages c :
  Forall (λ language, ¬ is_Throw (decode_entry language)) languages →
  for_each load_entry languages () c =
  (Ok (),
   foldl register_entry c
     (omap (λ language,
          match decode_entry language with Ok e => Some e | Throw _ => None end)
        languages)).
Proof.
  intros Hall. revert c. induction Hall as [|language rest Hok _ IH]; intros c; [done|].
  cbn [for_each omap list_omap]. unfold mbind at 1, CatalogM_bind.
  rewrite load_entry_run. destruct (decode_entry language) as [e|]; [|by destruct Hok].
  apply IH.
Qed.

Lemma load_layer_run host path c :
  match disk host (catalog_file host path) with
  | Missing => True
  | Malformed => False
  | Document languages =>
      Forall (λ language, ¬ is_Throw (decode_entry language))
        (iterate (Some languages))
  end →
  load_layer host path () c = (Ok (), foldl register_entry c (layer_entries host path)).
Proof.
  unfold load_layer, _LoadLanguages, layer_entries, entries_of, YAML_LoadFile.
  cbn [try_catch CatalogM_try lift]. unfold mbind at 1, CatalogM_bind.
  destruct (disk host (catalog_file host path)) as [| |languages]; [done..|].
  intros Hall. by rewrite for_each_load_entry.
Qed.

Lemma LoadLanguages_run host c :
  catalog_wellformed host →
  LoadLanguages host c = (Ok (), foldl register_entry c (catalog_entries host)).
Proof.
  intros Hwf. unfold LoadLanguages, DoInAllDataDirectories, catalog_entries.
  unfold data_directories in *. cbn [fmap list_fmap mbind list_bind].
  rewrite !foldl_app. unfold mbind, CatalogM_bind.
  rewrite !load_layer_run; [done|apply Hwf; set_solver..].
Qed.

(** What a sequence of registrations leaves in the three statics. *)

Lemma lookup_foldl_insert (name : string) (exts : list string) (m : gmap string string) key :
  foldl (λ m extension, <[extension := name]> m) m exts !! key =
  if decide (key ∈ exts) then Some name else m !! key.
Proof.
  revert m. induction exts as [|x exts IH]; intros m; cbn [foldl].
  - case_decide; [set_solver|done].
  - rewrite IH. destruct (decide (key = x)) as [->|Hne].
    + rewrite lookup_insert_eq. repeat case_decide; set_solver.
    + rewrite lookup_insert_ne by done. repeat case_decide; set_solver.
Qed.

Lemma sExtensions_foldl c entries ext :
  sExtensions (foldl register_entry c entries) !! ext =
  from_option Some (sExtensions c !! ext) (last_claim ext entries).
Proof.
  unfold last_claim. induction entries as [|e entries IH] using rev_ind; [done|].
  rewrite foldl_app, filter_app. cbn [foldl]. unfold register_entry at 1.
  cbn [sExtensions register_language]. rewrite lookup_foldl_insert.
  rewrite (filter_cons _ e), filter_nil.
  destruct (decide (ext ∈ e.2)).
  - by rewrite last_snoc.
  - by rewrite app_nil_r.
Qed.

Lemma sMenuItems_foldl c entries id :
  sMenuItems (foldl register_entry c entries) !! id =
  from_option Some (sMenuItems c !! id) (last_name id entries).
Proof.
  unfold last_name. induction entries as [|e entries IH] using rev_ind; [done|].
  rewrite foldl_app, filter_app. cbn [foldl]. unfold register_entry at 1.
  cbn [sMenuItems register_language].
  rewrite (filter_cons _ e), filter_nil.
  destruct (decide (e.1.1 = id)) as [<-|Hne].
  - by rewrite last_snoc, lookup_insert_eq.
  - by rewrite app_nil_r, lookup_insert_ne.
Qed.

Lemma filter_fresh_skip (seen : list string) x (l : list string) :
  x ∈ seen →
  filter (λ id, id ∉ seen) (filter (λ y, y ≠ x) l) = filter (λ id, id ∉ seen) l.
Proof.
  intros Hx. induction l as [|y l IH]; [done|].
  rewrite !filter_cons. destruct (decide (y ≠ x)) as [Hne|Heq].
  - rewrite filter_cons. by rewrite IH.
  - assert (y = x) as -> by (by destruct (decide (y = x))).
    by rewrite decide_False by set_solver.
Qed.

Lemma filter_fresh_snoc (seen : list string) x (l : list string) :
  filter (λ id, id ∉ seen ++ [x]) l = filter (λ id, id ∉ seen) (filter (λ y, y ≠ x) l).
Proof.
  induction l as [|y l IH]; [done|].
  rewrite !filter_cons. destruct (decide (y ≠ x)) as [Hne|Heq].
  - rewrite filter_cons, IH.
    destruct (decide (y ∉ seen)); [rewrite decide_True|rewrite decide_False]; set_solver.
  - rewrite IH. rewrite decide_False; set_solver.
Qed.

Lemma sLanguages_foldl c entries :
  sLanguages (foldl register_entry c entries) =
  sLanguages c ++ filter (λ id, id ∉ sLanguages c) (nub (entries.*1.*1)).
Proof.
  revert c. induction entries as [|e entries IH]; intros c.
  - by rewrite app_nil_r.
  - cbn [foldl fmap list_fmap nub]. rewrite IH.
    replace (sLanguages (register_entry c e))
      with (if bool_decide (e.1.1 ∈ sLanguages c)
            then sLanguages c else sLanguages c ++ [e.1.1]) by done.
    rewrite filter_cons. case_bool_decide as Hin.
    + rewrite decide_False by set_solver. by rewrite filter_fresh_skip.
    + rewrite decide_True by done. by rewrite <-app_assoc, filter_fresh_snoc.
Qed.

(** C7. An entry that has the shape the schema asks for is registered
    without an exception: each of its extensions maps to its language
    afterwards (the other extensions keep their mapping), the language is
    appended to the list of known ids only when it is not in it, and its
    display name is set. When every layer has no catalog document or a
    well-formed one, [LoadLanguages] ends without an exception, and with the
    entries taken in layer order: an extension maps to the language of the
    last entry that lists it; the list of known ids is the old list followed
    by the new ids in the order of their first appearance, each once; a
    language's display name is that of the last entry for it. *)
Theorem LoadLanguages_catalog (host : Host) (c : Catalog) :
  (∀ language name menuitem extensions,
     decode_entry language = Ok (name, menuitem, extensions) →
     ∃ c', load_entry () language c = (Ok (), c') ∧
       (∀ ext, sExtensions c' !! ext =
          if decide (ext ∈ extensions) then Some name else sExtensions c !! ext) ∧
       sLanguages c' =
         (if decide (name ∈ sLanguages c) then sLanguages c else sLanguages c ++ [name]) ∧
       sMenuItems c' = <[name := menuitem]> (sMenuItems c)) ∧
  (catalog_wellformed host →
   ∃ c', LoadLanguages host c = (Ok (), c') ∧
     (∀ ext, sExtensions c' !! ext =
        from_option Some (sExtensions c !! ext) (last_claim ext (catalog_entries host))) ∧
     sLanguages c' =
       sLanguages c ++
       filter (λ id, id ∉ sLanguages c) (nub ((catalog_entries host).*1.*1)) ∧
     (∀ id, sMenuItems c' !! id =
        from_option Some (sMenuItems c !! id) (last_name id (catalog_entries host)))).
Proof.
  split.
  - intros language name menuitem extensions Hentry. eexists.
    rewrite load_entry_run, Hentry. split; [done|].
    unfold register_entry. cbn [fst snd register_language sExtensions sLanguages sMenuItems].
    split; [|split; [|done]].
    + intros ext. apply lookup_foldl_insert.
    + by case_bool_decide; case_decide.
  - intros Hwf. eexists. split; [by apply LoadLanguages_run|].
    split; [|split].
    + intros ext. apply sExtensions_foldl.
    + apply sLanguages_foldl.
    + intros id. apply sMenuItems_foldl.
Qed.

(** * ApplyLanguage: the layers *)

Lemma bind_ret_r {A} (m : EditorM A) h : (m ≫= mret) h = m h.
Proof.
  rewrite bind_run. destruct (m h) as [[a|e] out]; [|done].
  simpl. by rewrite app_nil_r.
Qed.

Lemma bind_ext {A B} (m : EditorM A) (f g : A → EditorM B) h :
  (∀ a h', f a h' = g a h') → (m ≫= f) h = (m ≫= g) h.
Proof. intros Hfg. rewrite !bind_run. destruct (m h) as [[a|e] out]; [|done]. by rewrite Hfg. Qed.

Lemma DoInAllDataDirectories_for_each host {St} (func : BPath → St → EditorM St) st h :
  DoInAllDataDirectories host func st h =
  for_each (λ st path, func path st) (data_directories host) st h.
Proof.
  unfold DoInAllDataDirectories, data_directories. cbn [fmap list_fmap for_each].
  apply bind_ext; intros st1 h1. apply bind_ext; intros st2 h2.
  apply bind_ext; intros st3 h3. by rewrite bind_ret_r.
Qed.

Lemma _ApplyLanguage_run host lang path h :
  _ApplyLanguage host lang path h =
  match disk host (language_file host lang path) with
  | Missing => (Throw BadFile, [Opened (language_file host lang path)])
  | Malformed => (Throw ParserException, [Opened (language_file host lang path)])
  | Document language =>
      ((apply_document host language (h ++ [Opened (language_file host lang path)])).1,
       Opened (language_file host lang path) ::
       (apply_document host language (h ++ [Opened (language_file host lang path)])).2)
  end.
Proof.
  unfold _ApplyLanguage. rewrite bind_run. unfold LoadFile, YAML_LoadFile.
  destruct (disk host (language_file host lang path)); try done.
  by destruct (apply_document _ _ _).
Qed.

Lemma apply_layer_run host lang path styleMapping h :
  apply_layer host lang path styleMapping h =
  match _ApplyLanguage host lang path h with
  | (Ok m, out) => (Ok (m ∪ styleMapping), out)
  | (Throw e, out) =>
      if bool_decide (e = BadFile) then (Ok styleMapping, out) else (Throw e, out)
  end.
Proof.
  unfold apply_layer. cbn [try_catch EditorM_try]. rewrite bind_run.
  destruct (_ApplyLanguage host lang path h) as [[m|e] out]; simpl.
  - by rewrite app_nil_r.
  - case_bool_decide; [|done]. simpl. by rewrite app_nil_r.
Qed.

Lemma ApplyLanguage_run host lang h :
  ApplyLanguage host lang h =
  ((for_each (λ st path, apply_layer host lang path st) (data_directories host) ∅
      (h ++ [Sent SCI_FREESUBSTYLES])).1,
   Sent SCI_FREESUBSTYLES ::
   (for_each (λ st path, apply_layer host lang path st) (data_directories host) ∅
      (h ++ [Sent SCI_FREESUBSTYLES])).2).
Proof.
  unfold ApplyLanguage. rewrite bind_run. cbn [perform].
  rewrite DoInAllDataDirectories_for_each. by destruct (for_each (M:=EditorM) _ _ _ _).
Qed.

Lemma layers_merge host lang paths acc h final out :
  for_each (λ st path, apply_layer host lang path st) paths acc h = (Ok final, out) →
  final = foldl (λ acc m, m ∪ acc) acc (layer_styleMaps host lang paths h).
Proof.
  revert acc h out. induction paths as [|path paths IH]; intros acc h out.
  - by intros [= <- _].
  - cbn [for_each layer_styleMaps]. intros (acc' & o1 & o2 & Hlayer & Hrest & _)%bind_Ok_inv.
    rewrite apply_layer_run in Hlayer.
    destruct (_ApplyLanguage host lang path h) as [[m|e] o]; simpl in *.
    + injection Hlayer as <- <-. by apply IH in Hrest.
    + case_bool_decide; [|done]. injection Hlayer as <- <-. by apply IH in Hrest.
Qed.

Lemma lookup_merge (maps : list (gmap Z Z)) acc k :
  foldl (λ acc m, m ∪ acc) acc maps !! k =
  from_option Some (acc !! k) (last (omap (λ m : gmap Z Z, m !! k) maps)).
Proof.
  induction maps as [|m maps IH] using rev_ind; [done|].
  rewrite foldl_app, omap_app. cbn [foldl omap list_omap].
  rewrite lookup_union. destruct (m !! k) as [v|] eqn:Hm.
  - rewrite last_snoc. simpl. by destruct (foldl _ _ _ !! k).
  - rewrite app_nil_r, <-IH. by destruct (foldl _ _ _ !! k).
Qed.

(** C1. When [ApplyLanguage] returns a map, it is the right-biased merge
    of the maps [_ApplyLanguage] returned for the layers, in layer order,
    and so at every key it holds the value of the last layer that has the
    key: the latest of several, the only one unchanged, none when no layer
    has it. *)
Theorem ApplyLanguage_merge (host : Host) (lang : string) (h : list Event)
    (final : gmap Z Z) (out : list Event) :
  ApplyLanguage host lang h = (Ok final, out) →
  final =
    merge_layers
      (layer_styleMaps host lang (data_directories host) (h ++ [Sent SCI_FREESUBSTYLES])) ∧
  ∀ k, final !! k =
    last (omap (λ m : gmap Z Z, m !! k)
            (layer_styleMaps host lang (data_directories host)
               (h ++ [Sent SCI_FREESUBSTYLES]))).
Proof.
  rewrite ApplyLanguage_run.
  destruct (for_each (M:=EditorM) _ _ _ _) as [r o] eqn:Hrun. simpl. intros [= -> _].
  apply layers_merge in Hrun. split; [done|].
  intros k. rewrite Hrun, lookup_merge, lookup_empty.
  by destruct (last _).
Qed.

(** ** The reset *)

Lemma apply_document_no_reset host language :
  emits (λ ev, ev ≠ Sent SCI_FREESUBSTYLES) (apply_document host language).
Proof.
  unfold apply_document.
  apply emits_bind; [by apply emits_select_lexer|intros _].
  apply emits_bind; [by apply emits_set_properties|intros _].
  apply emits_bind; [by apply emits_set_keywords|intros _].
  apply emits_bind; [by apply emits_allocate_identifiers|intros substyleStartMap].
  apply emits_bind; [by apply emits_register_comments|intros _].
  apply emits_lift.
Qed.

Lemma apply_layer_no_reset host lang path styleMapping :
  emits (λ ev, ev ≠ Sent SCI_FREESUBSTYLES) (apply_layer host lang path styleMapping).
Proof.
  unfold apply_layer.
  apply emits_try_catch; [|apply emits_ret].
  apply emits_bind; [|intros; apply emits_ret].
  unfold _ApplyLanguage. apply emits_bind; [by apply emits_LoadFile|].
  intros language. apply apply_document_no_reset.
Qed.

(** C8. [ApplyLanguage] starts with [SCI_FREESUBSTYLES] and sends it only
    that once: every file it opens and every other call to the editor comes
    after. For an editor whose replies depend on the calls since the last
    reset only, the whole run (the returned map, the calls) is then the
    same whatever was allocated before the call. *)
Theorem ApplyLanguage_resets_first (host : Host) (lang : string) (h : list Event) :
  (∃ rest, (ApplyLanguage host lang h).2 = Sent SCI_FREESUBSTYLES :: rest ∧
           Forall (λ ev, ev ≠ Sent SCI_FREESUBSTYLES) rest) ∧
  (replies_since_reset host →
   ∀ h', ApplyLanguage host lang h' = ApplyLanguage host lang h).
Proof.
  split.
  - rewrite ApplyLanguage_run. eexists. split; [done|]. cbn [snd].
    apply (emits_for_each (λ ev, ev ≠ Sent SCI_FREESUBSTYLES)).
    intros st path. apply apply_layer_no_reset.
  - intros Hreset h'. rewrite !ApplyLanguage_run.
    assert (for_each (λ st path, apply_layer host lang path st)
              (data_directories host) ∅ (h' ++ [Sent SCI_FREESUBSTYLES]) =
            for_each (λ st path, apply_layer host lang path st)
              (data_directories host) ∅ (h ++ [Sent SCI_FREESUBSTYLES])) as ->; [|done].
    apply stable_for_each.
    + intros st path. by apply stable_apply_layer.
    + by exists h', h, [].
Qed.

(** ** Layers without a usable document *)

Lemma for_each_throws {St} (body : St → BPath → EditorM St) paths path :
  path ∈ paths → (∀ st h, is_Throw (body st path h).1) →
  ∀ st h, is_Throw (for_each body paths st h).1.
Proof.
  intros Hin Hthrow. induction paths as [|p paths IH]; intros st h.
  - by apply elem_of_nil in Hin.
  - cbn [for_each]. rewrite bind_run.
    destruct (decide (p = path)) as [->|Hne].
    + specialize (Hthrow st h). by destruct (body st path h) as [[?|?] ?].
    + destruct (body st p h) as [[st'|e] o]; [|done].
      assert (path ∈ paths) as Hin' by set_solver.
      specialize (IH Hin' st' (h ++ o)).
      by destruct (for_each body paths st' (h ++ o)).
Qed.

Lemma ApplyLanguage_throws host lang path :
  path ∈ data_directories host →
  (∀ st h, is_Throw (apply_layer host lang path st h).1) →
  ∀ h, is_Throw (ApplyLanguage host lang h).1.
Proof.
  intros Hin Hthrow h. rewrite ApplyLanguage_run. cbn [fst].
  by apply (for_each_throws (λ st path, apply_layer host lang path st) _ path).
Qed.

Lemma LoadLanguages_throws host path :
  path ∈ data_directories host →
  (∀ c, is_Throw (load_layer host path () c).1) →
  ∀ c, is_Throw (LoadLanguages host c).1.
Proof.
  intros Hin Hthrow c. unfold LoadLanguages, DoInAllDataDirectories.
  unfold data_directories in Hin. cbn [fmap list_fmap] in Hin.
  unfold mbind, CatalogM_bind.
  destruct (load_layer host _ () c) as [[[]|?] c1] eqn:H1; [|done].
  destruct (load_layer host _ () c1) as [[[]|?] c2] eqn:H2; [|done].
  destruct (load_layer host _ () c2) as [[[]|?] c3] eqn:H3; [|done].
  destruct (load_layer host _ () c3) as [[[]|?] c4] eqn:H4; [|done].
  repeat (apply elem_of_cons in Hin as [->|Hin]);
    [ specialize (Hthrow c); by rewrite H1 in Hthrow
    | specialize (Hthrow c1); by rewrite H2 in Hthrow
    | specialize (Hthrow c2); by rewrite H3 in Hthrow
    | specialize (Hthrow c3); by rewrite H4 in Hthrow
    | by apply elem_of_nil in Hin ].
Qed.

(** C4, as stated, fails: a document that is there and does not parse ends
    both [ApplyLanguage] and [LoadLanguages] with [ParserException]. *)
Lemma malformed_document_propagates :
  (ApplyLanguage malformed_host "cpp" []).1 = Throw ParserException ∧
  (LoadLanguages malformed_host empty_catalog).1 = Throw ParserException.
Proof. split; vm_compute; reflexivity. Qed.

(** C4, amended. A layer whose document file is missing is skipped: the
    closure of [ApplyLanguage] returns with [styleMapping] as it was and no
    editor call, the closure of [LoadLanguages] with the catalog as it was,
    and the loop goes on with the next layer. A document that does not parse
    is not caught: [ParserException] leaves the closure and, for a layer of
    the host, the whole call. *)
Theorem layer_load_failures (host : Host) (lang : string) (path : BPath)
    (styleMapping : gmap Z Z) (h : list Event) (c : Catalog) :
  (disk host (language_file host lang path) = Missing →
   apply_layer host lang path styleMapping h =
     (Ok styleMapping, [Opened (language_file host lang path)]) ∧
   ∀ rest,
     for_each (λ st p, apply_layer host lang p st) (path :: rest) styleMapping h =
     ((for_each (λ st p, apply_layer host lang p st) rest styleMapping
         (h ++ [Opened (language_file host lang path)])).1,
      Opened (language_file host lang path) ::
      (for_each (λ st p, apply_layer host lang p st) rest styleMapping
         (h ++ [Opened (language_file host lang path)])).2)) ∧
  (disk host (catalog_file host path) = Missing →
   load_layer host path () c = (Ok (), c)) ∧
  (disk host (language_file host lang path) = Malformed →
   apply_layer host lang path styleMapping h =
     (Throw ParserException, [Opened (language_file host lang path)]) ∧
   (path ∈ data_directories host → ∀ h0, is_Throw (ApplyLanguage host lang h0).1)) ∧
  (disk host (catalog_file host path) = Malformed →
   load_layer host path () c = (Throw ParserException, c) ∧
   (path ∈ data_directories host → ∀ c0, is_Throw (LoadLanguages host c0).1)).
Proof.
  assert (∀ content st h',
    disk host (language_file host lang path) = content →
    apply_layer host lang path st h' =
    match content with
    | Missing => (Ok st, [Opened (language_file host lang path)])
    | Malformed => (Throw ParserException, [Opened (language_file host lang path)])
    | Document language => apply_layer host lang path st h'
    end) as Hlayer.
  { intros content st h' Hdisk. rewrite apply_layer_run at 1. rewrite _ApplyLanguage_run, Hdisk.
    destruct content; try done.
    rewrite apply_layer_run, _ApplyLanguage_run, Hdisk. done. }
  assert (∀ content c',
    disk host (catalog_file host path) = content →
    load_layer host path () c' =
    match content with
    | Missing => (Ok (), c')
    | Malformed => (Throw ParserException, c')
    | Document languages => load_layer host path () c'
    end) as Hload.
  { intros content c' Hdisk. destruct content; try done.
    all: unfold load_layer, _LoadLanguages, YAML_LoadFile;
      cbn [try_catch CatalogM_try lift]; unfold mbind, CatalogM_bind;
      by rewrite Hdisk. }
  repeat split.
  - by apply (Hlayer Missing).
  - intros rest. cbn [for_each].
    by erewrite bind_Ok_run by by apply (Hlayer Missing).
  - by apply (Hload Missing).
  - by apply (Hlayer Malformed).
  - intros Hin. apply (ApplyLanguage_throws host lang path Hin).
    intros st h'. by rewrite (Hlayer Malformed).
  - by apply (Hload Malformed).
  - intros Hin. apply (LoadLanguages_throws host path Hin).
    intros c'. by rewrite (Hload Malformed).
Qed.

Lemma layer_load_failures_witness :
  apply_layer (host_with []) "cpp" "/system/data" ∅ [] =
    (Ok ∅, [Opened "/system/data/Koder/languages/cpp.yaml"]) ∧
  load_layer (host_with []) "/system/data" () empty_catalog = (Ok (), empty_catalog) ∧
  is_Throw (ApplyLanguage malformed_host "cpp" []).1 ∧
  is_Throw (LoadLanguages malformed_host empty_catalog).1.
Proof.
  destruct (layer_load_failures (host_with []) "cpp" "/system/data" ∅ [] empty_catalog)
    as (Ha & Hb & _ & _).
  destruct (layer_load_failures malformed_host "cpp" "/system/data" ∅ [] empty_catalog)
    as (_ & _ & Hc & Hd).
  split; [apply Ha; reflexivity|]. split; [apply Hb; reflexivity|].
  split; [apply Hc; [reflexivity | vm_compute; apply list_elem_of_here]|].
  apply Hd; [reflexivity | vm_compute; apply list_elem_of_here].
Defined.

(** * _ApplyLanguage: one document *)

(** ** The lexer *)

Lemma select_lexer_run host language h :
  select_lexer host language h =
  match subscript (Some language) "lexer" ≫= as_int host with
  | Ok lexerID => (Ok (), [Sent (SCI_SETLEXER lexerID)])
  | Throw e =>
      if bool_decide (e = TypedBadConversion T_int) then
        match subscript (Some language) "lexer" ≫= as_string with
        | Ok lexerName => (Ok (), [Sent (SCI_SETLEXERLANGUAGE lexerName)])
        | Throw e' => (Throw e', [])
        end
      else (Throw e, [])
  end.
Proof.
  unfold select_lexer. cbn [try_catch EditorM_try]. rewrite bind_run, lift_run.
  destruct (subscript (Some language) "lexer" ≫= as_int host) as [lexerID|e]; [done|].
  case_bool_decide; [|done]. rewrite bind_run, lift_run.
  by destruct (subscript (Some language) "lexer" ≫= as_string).
Qed.

Lemma lexer_not_BadFile host language e :
  subscript (Some language) "lexer" ≫= as_int host = Throw e ∨
  subscript (Some language) "lexer" ≫= as_string = Throw e →
  e ≠ BadFile.
Proof.
  unfold as_int, as_string.
  destruct (subscript (Some language) "lexer") as [lexer|e'] eqn:Hsub; simpl.
  - intros [H|H]; repeat case_match; congruence.
  - unfold subscript in Hsub. intros [H|H]; repeat case_match; congruence.
Qed.

Lemma after_lexer_no_lexer_call host language :
  emits (λ ev, ¬ lexer_call ev)
    (set_properties host language;;
     set_keywords host language;;
     substyleStartMap ← allocate_identifiers host language;
     register_comments host language;;
     lift (build_styleMap host language substyleStartMap)).
Proof.
  apply emits_bind; [by apply emits_set_properties; intros ?? []|intros _].
  apply emits_bind; [by apply emits_set_keywords; intros ?? []|intros _].
  apply emits_bind;
    [by apply emits_allocate_identifiers; intros ?? []|intros substyleStartMap].
  apply emits_bind; [by apply emits_register_comments; intros; intros []|intros _].
  apply emits_lift.
Qed.

(** C5. For a document [_ApplyLanguage] has loaded: when the [lexer] field
    converts to an [int], the first call is [SCI_SETLEXER] with it; when
    that conversion fails with a bad conversion and the field converts to a
    string, the first call is [SCI_SETLEXERLANGUAGE] with the string; in
    both cases no other lexer selection follows. Otherwise the run ends with
    the exception before any call to the editor, and [ApplyLanguage] ends
    with an exception too when the document is that of one of its layers. *)
Theorem lexer_selection (host : Host) (lang : string) (path : BPath)
    (language : Node) (h : list Event) :
  disk host (language_file host lang path) = Document language →
  (∀ lexerID,
     subscript (Some language) "lexer" ≫= as_int host = Ok lexerID →
     ∃ rest,
       (_ApplyLanguage host lang path h).2 =
         Opened (language_file host lang path) :: Sent (SCI_SETLEXER lexerID) :: rest ∧
       Forall (λ ev, ¬ lexer_call ev) rest) ∧
  (∀ lexerName,
     subscript (Some language) "lexer" ≫= as_int host = Throw (TypedBadConversion T_int) →
     subscript (Some language) "lexer" ≫= as_string = Ok lexerName →
     ∃ rest,
       (_ApplyLanguage host lang path h).2 =
         Opened (language_file host lang path) ::
         Sent (SCI_SETLEXERLANGUAGE lexerName) :: rest ∧
       Forall (λ ev, ¬ lexer_call ev) rest) ∧
  (∀ e,
     (subscript (Some language) "lexer" ≫= as_int host = Throw e ∧
      e ≠ TypedBadConversion T_int) ∨
     (subscript (Some language) "lexer" ≫= as_int host = Throw (TypedBadConversion T_int) ∧
      subscript (Some language) "lexer" ≫= as_string = Throw e) →
     _ApplyLanguage host lang path h = (Throw e, [Opened (language_file host lang path)]) ∧
     (path ∈ data_directories host → ∀ h0, is_Throw (ApplyLanguage host lang h0).1)).
Proof.
  intros Hdisk.
  assert (∀ h', _ApplyLanguage host lang path h' =
    match select_lexer host language (h' ++ [Opened (language_file host lang path)]) with
    | (Ok _, sel) =>
        ((apply_document host language (h' ++ [Opened (language_file host lang path)])).1,
         Opened (language_file host lang path) :: sel ++
         ((set_properties host language;;
           set_keywords host language;;
           substyleStartMap ← allocate_identifiers host language;
           register_comments host language;;
           lift (build_styleMap host language substyleStartMap))
            ((h' ++ [Opened (language_file host lang path)]) ++ sel)).2)
    | (Throw e, sel) => (Throw e, Opened (language_file host lang path) :: sel)
    end) as Hrun.
  { intros h'. rewrite _ApplyLanguage_run, Hdisk. unfold apply_document.
    rewrite bind_run.
    destruct (select_lexer host language _) as [[[]|e] sel]; [|done].
    by destruct ((set_properties host language;; _) _). }
  split; [|split].
  - intros lexerID Hint. rewrite Hrun, select_lexer_run, Hint. cbn [snd app].
    eexists. split; [done|]. apply after_lexer_no_lexer_call.
  - intros lexerName Hint Hstr. rewrite Hrun, select_lexer_run, Hint, Hstr.
    rewrite bool_decide_eq_true_2 by done. cbn [snd app].
    eexists. split; [done|]. apply after_lexer_no_lexer_call.
  - intros e He.
    assert (∀ h', _ApplyLanguage host lang path h' =
              (Throw e, [Opened (language_file host lang path)])) as Hthrow.
    { intros h'. rewrite Hrun, select_lexer_run.
      destruct He as [[-> Hne]|[-> ->]].
      - by rewrite bool_decide_eq_false_2.
      - by rewrite bool_decide_eq_true_2. }
    split; [apply Hthrow|]. intros Hin. apply (ApplyLanguage_throws host lang path Hin).
    intros st h'. rewrite apply_layer_run, Hthrow.
    rewrite bool_decide_eq_false_2; [done|].
    apply (lexer_not_BadFile host language). destruct He as [[? _]|[_ ?]]; eauto.
Qed.

(** ** The exceptions of a loaded document *)

Definition converts {A} (r : Result A) : Prop :=
  ∀ e, r = Throw e → representation e.

Lemma converts_bind {A B} (r : Result A) (f : A → Result B) :
  converts r → (∀ a, converts (f a)) → converts (r ≫= f).
Proof.
  intros Hr Hf e. destruct r as [a|e']; simpl.
  - apply Hf.
  - intros [= <-]. by apply Hr.
Qed.

Lemma converts_Ok {A} (a : A) : converts (Ok a).
Proof. by intros e. Qed.

Lemma converts_as_int host n : converts (as_int host n).
Proof. intros e. unfold as_int. repeat case_match; intros [= <-]; by split. Qed.

Lemma converts_as_string n : converts (as_string n).
Proof. intros e. unfold as_string. repeat case_match; intros [= <-]; by split. Qed.

Lemma converts_subscript n key : converts (subscript n key).
Proof. intros e. unfold subscript. repeat case_match; intros [= <-]; by split. Qed.

Lemma converts_subscript_int host n key : converts (subscript_int host n key).
Proof. intros e. unfold subscript_int. repeat case_match; intros [= <-]; by split. Qed.

Lemma converts_decode_map host pairs rhs : converts (decode_map host pairs rhs).
Proof.
  revert rhs. induction pairs as [|[k v] pairs IH]; intros rhs; [apply converts_Ok|].
  cbn [decode_map]. apply converts_bind; [apply converts_as_int|intros value].
  apply converts_bind; [apply converts_as_int|intros key]. apply IH.
Qed.

Lemma converts_for_each {A St} (body : St → A → Result St) l st :
  (∀ st x, converts (body st x)) → converts (for_each body l st).
Proof.
  intros Hbody. revert st. induction l as [|x l IH]; intros st; [apply converts_Ok|].
  cbn [for_each]. apply converts_bind; [apply Hbody|apply IH].
Qed.

Lemma converts_build_styleMap host language ssm :
  converts (build_styleMap host language ssm).
Proof.
  unfold build_styleMap, direct_styles.
  apply converts_bind.
  { apply converts_bind; [apply converts_subscript|intros styles].
    destruct styles as [n|]; [|apply converts_Ok].
    unfold as_map_int_int. repeat case_match; try apply converts_decode_map;
      intros e [= <-]; by split. }
  intros styleMap. apply converts_bind; [apply converts_subscript|intros substyles].
  repeat case_match; try apply converts_Ok.
  apply converts_bind; [|intros [? ?]; apply converts_Ok].
  apply converts_for_each. intros [ssm' sm'] id. unfold add_group.
  repeat case_match; try apply converts_Ok.
  apply converts_bind; [|intros [[? ?] ?]; apply converts_Ok].
  unfold add_substyles. apply converts_for_each. intros [[? ?] ?] styleId.
  unfold add_substyle. apply converts_bind; [apply converts_as_int|intros substyleId].
  destruct (map_index 0 substyleId _) as [? ?].
  apply converts_bind; [apply converts_as_int|intros value]. apply converts_Ok.
Qed.

Section raises.
Context (host : Host) (Q : Exception → Prop).

Lemma raises_ret {A} (a : A) : raises Q (mret a).
Proof. by intros h e. Qed.

Lemma raises_lift {A} (r : Result A) : (∀ e, r = Throw e → Q e) → raises Q (lift r).
Proof. intros Hr h e. apply Hr. Qed.

Lemma raises_bind {A B} (m : EditorM A) (f : A → EditorM B) :
  raises Q m → (∀ a, raises Q (f a)) → raises Q (m ≫= f).
Proof.
  intros Hm Hf h e. rewrite bind_run. specialize (Hm h).
  destruct (m h) as [[a|e'] o1]; simpl in *.
  - specialize (Hf a (h ++ o1) e). by destruct (f a (h ++ o1)).
  - intros [= <-]. by apply Hm.
Qed.

Lemma raises_perform call : raises Q (perform host call).
Proof. by intros h e. Qed.

Lemma raises_for_each {A St} (body : St → A → EditorM St) l st :
  (∀ st x, raises Q (body st x)) → raises Q (for_each body l st).
Proof.
  intros Hb. revert st. induction l as [|x l IH]; intros st; cbn [for_each].
  - apply raises_ret.
  - apply raises_bind; [apply Hb | intros st'; apply IH].
Qed.
End raises.

Ltac raises_step :=
  first
    [ apply raises_ret
    | apply raises_perform
    | apply raises_lift
    | apply raises_for_each; intros
    | apply raises_bind; [|intros] ].

Lemma raises_apply_document host language :
  raises representation (apply_document host language).
Proof.
  unfold apply_document.
  apply raises_bind; [|intros _].
  { intros h e. rewrite select_lexer_run.
    pose proof (converts_bind _ (as_int host) (converts_subscript (Some language) "lexer")
                  (converts_as_int host)) as Hint.
    pose proof (converts_bind _ as_string (converts_subscript (Some language) "lexer")
                  converts_as_string) as Hstr.
    destruct (subscript (Some language) "lexer" ≫= as_int host) as [?|e1]; [done|].
    case_bool_decide.
    - destruct (subscript (Some language) "lexer" ≫= as_string) as [?|e2]; [done|].
      intros [= <-]. by apply Hstr.
    - intros [= <-]. by apply Hint. }
  unfold set_properties, set_keywords, allocate_identifiers, register_comments.
  repeat (first [raises_step | case_match]);
    try (unfold allocate_group, set_identifiers;
         repeat (first [raises_step | case_match]));
    first [ apply converts_subscript | apply converts_as_string | apply converts_as_int
          | apply converts_build_styleMap
          | apply converts_bind; [apply converts_subscript_int|intros; apply converts_as_string]
          | idtac ].
Qed.

Lemma apply_layer_content host lang path styleMapping h :
  apply_layer host lang path styleMapping h =
  match disk host (language_file host lang path) with
  | Missing => (Ok styleMapping, [Opened (language_file host lang path)])
  | Malformed => (Throw ParserException, [Opened (language_file host lang path)])
  | Document language =>
      match apply_document host language (h ++ [Opened (language_file host lang path)]) with
      | (Ok m, out) => (Ok (m ∪ styleMapping), Opened (language_file host lang path) :: out)
      | (Throw e, out) => (Throw e, Opened (language_file host lang path) :: out)
      end
  end.
Proof.
  rewrite apply_layer_run, _ApplyLanguage_run.
  destruct (disk host (language_file host lang path)) as [| |language]; try done.
  pose proof (raises_apply_document host language
                (h ++ [Opened (language_file host lang path)])) as Hraises.
  destruct (apply_document host language _) as [[m|e] out]; [done|]. cbn [fst snd].
  rewrite bool_decide_eq_false_2; [done|]. by apply Hraises.
Qed.

(** ** Comment tokens *)

Lemma register_comments_run host language comments line block h :
  subscript (Some language) "comments" = Ok (Some comments) →
  subscript (Some comments) "line" = Ok line →
  subscript (Some comments) "block" = Ok block →
  line = None ∨ ¬ is_Throw (as_string line) →
  register_comments host language h =
  match block with
  | Some (Sequence _) =>
      match subscript_int host block 0 ≫= as_string with
      | Ok start =>
          match subscript_int host block 1 ≫= as_string with
          | Ok finish =>
              (Ok (), line_events line ++ [Sent (SetCommentBlockTokens start finish)])
          | Throw e => (Throw e, line_events line)
          end
      | Throw e => (Throw e, line_events line)
      end
  | _ => (Ok (), line_events line)
  end.
Proof.
  intros Hcomments Hline Hblock Hok. unfold register_comments.
  rewrite (bind_lift_Ok _ _ _ _ Hcomments), (bind_lift_Ok _ _ _ _ Hline).
  erewrite bind_Ok_run; cycle 1.
  { instantiate (1 := line_events line). instantiate (1 := ()).
    unfold line_events. destruct line as [l|]; [|done].
    destruct (as_string (Some l)) as [token|e]; [|by destruct Hok as [|[]]].
    by rewrite (bind_lift_Ok _ _ _ _ eq_refl). }
  rewrite (bind_lift_Ok _ _ _ _ Hblock).
  destruct block as [[| |items|]|]; try (by rewrite app_nil_r).
  destruct (subscript_int host (Some (Sequence items)) 0 ≫= as_string)
    as [start|e]; [|by rewrite (bind_lift_Throw _ _ _ _ eq_refl), app_nil_r].
  rewrite (bind_lift_Ok _ _ _ _ eq_refl).
  destruct (subscript_int host (Some (Sequence items)) 1 ≫= as_string)
    as [finish|e]; [|by rewrite (bind_lift_Throw _ _ _ _ eq_refl), app_nil_r].
  by rewrite (bind_lift_Ok _ _ _ _ eq_refl).
Qed.

Lemma apply_document_comments host language h :
  apply_document host language h =
  match before_comments host language h with
  | (Ok substyleStartMap, pre) =>
      match register_comments host language (h ++ pre) with
      | (Ok _, out) => (build_styleMap host language substyleStartMap, pre ++ out)
      | (Throw e, out) => (Throw e, pre ++ out)
      end
  | (Throw e, pre) => (Throw e, pre)
  end.
Proof.
  unfold apply_document, before_comments. rewrite !bind_run.
  destruct (select_lexer host language h) as [[[]|e] o1]; [|done].
  rewrite !bind_run.
  destruct (set_properties host language (h ++ o1)) as [[[]|e] o2]; [|done].
  rewrite !bind_run.
  destruct (set_keywords host language ((h ++ o1) ++ o2)) as [[[]|e] o3]; [|done].
  rewrite bind_run.
  destruct (allocate_identifiers host language (((h ++ o1) ++ o2) ++ o3))
    as [[substyleStartMap|e] o4]; [|done].
  rewrite bind_run, <-!app_assoc.
  destruct (register_comments host language (h ++ o1 ++ o2 ++ o3 ++ o4))
    as [[[]|e] o5]; [|by rewrite <-!app_assoc].
  rewrite lift_run, app_nil_r. by rewrite <-!app_assoc.
Qed.

Lemma _ApplyLanguage_no_block_call host lang path :
  (∀ language, disk host (language_file host lang path) = Document language →
               emits (λ ev, ¬ block_call ev) (register_comments host language)) →
  emits (λ ev, ¬ block_call ev) (_ApplyLanguage host lang path).
Proof.
  intros Hcomments h. rewrite _ApplyLanguage_run.
  destruct (disk host (language_file host lang path)) as [| |language] eqn:Hdisk;
    try by repeat constructor; intros [].
  cbn [snd]. constructor; [by intros []|].
  revert h. intros h. generalize (h ++ [Opened (language_file host lang path)]).
  change (emits (λ ev, ¬ block_call ev) (apply_document host language)).
  unfold apply_document.
  apply emits_bind; [by apply emits_select_lexer; intros; intros []|intros _].
  apply emits_bind; [by apply emits_set_properties; intros ?? []|intros _].
  apply emits_bind; [by apply emits_set_keywords; intros ?? []|intros _].
  apply emits_bind;
    [by apply emits_allocate_identifiers; intros ?? []|intros substyleStartMap].
  apply emits_bind; [by apply Hcomments|intros _]. apply emits_lift.
Qed.

Lemma line_events_no_block_call line :
  Forall (λ ev, ¬ block_call ev) (line_events line).
Proof.
  unfold line_events. destruct line as [l|]; [|constructor].
  destruct (as_string (Some l)); repeat constructor. by intros [].
Qed.

(** C9, as stated, fails: a block sequence with one element ends the whole
    resolution with an exception. *)
Lemma short_block_raises :
  (ApplyLanguage short_block_host "cpp" []).1 = Throw InvalidNode.
Proof. vm_compute. reflexivity. Qed.

(** C9, amended. Let [_ApplyLanguage] load a document with a [comments]
    section whose [line] key is absent or converts to a string, and let the
    steps before the comments end without an exception, with the events
    [pre]. A line token, when there, is registered right after [pre],
    whatever [block] is. A [block] value that is not a sequence is ignored:
    the run goes on to the styles, and no run on the document registers
    block tokens. A sequence whose first two elements convert to strings
    registers them as the block tokens, the further elements being unused.
    A sequence of fewer than two elements is not ignored: [_ApplyLanguage]
    ends with an exception right after the line token, [InvalidNode] for
    the missing element when the elements that are there convert; every run
    on the document ends with an exception and none registers block
    tokens; and the exception is not caught, so that [ApplyLanguage] ends
    with an exception whenever the document is that of one of its
    layers. *)
Theorem comment_tokens (host : Host) (lang : string) (path : BPath)
    (language comments : Node) (line block : option Node) (h : list Event)
    (substyleStartMap : gmap Z Z) (pre : list Event) :
  disk host (language_file host lang path) = Document language →
  subscript (Some language) "comments" = Ok (Some comments) →
  subscript (Some comments) "line" = Ok line →
  subscript (Some comments) "block" = Ok block →
  line = None ∨ ¬ is_Throw (as_string line) →
  before_comments host language (h ++ [Opened (language_file host lang path)]) =
    (Ok substyleStartMap, pre) →
  (∀ token, line = Some (Scalar token) →
     line_events line = [Sent (SetCommentLineToken token)] ∧
     ∃ rest,
       (_ApplyLanguage host lang path h).2 =
         Opened (language_file host lang path) :: pre ++
         Sent (SetCommentLineToken token) :: rest) ∧
  ((∀ items, block ≠ Some (Sequence items)) →
     _ApplyLanguage host lang path h =
       (build_styleMap host language substyleStartMap,
        Opened (language_file host lang path) :: pre ++ line_events line) ∧
     ∀ h0, Forall (λ ev, ¬ block_call ev) (_ApplyLanguage host lang path h0).2) ∧
  (∀ first second others start finish,
     block = Some (Sequence (first :: second :: others)) →
     as_string (Some first) = Ok start → as_string (Some second) = Ok finish →
     _ApplyLanguage host lang path h =
       (build_styleMap host language substyleStartMap,
        Opened (language_file host lang path) :: pre ++ line_events line ++
        [Sent (SetCommentBlockTokens start finish)])) ∧
  (∀ items,
     block = Some (Sequence items) → (length items < 2)%nat →
     (∃ e,
        _ApplyLanguage host lang path h =
          (Throw e, Opened (language_file host lang path) :: pre ++ line_events line) ∧
        e ≠ BadFile ∧
        (Forall (λ item, ¬ is_Throw (as_string (Some item))) items → e = InvalidNode)) ∧
     (∀ h0, is_Throw (_ApplyLanguage host lang path h0).1 ∧
            Forall (λ ev, ¬ block_call ev) (_ApplyLanguage host lang path h0).2) ∧
     (path ∈ data_directories host → ∀ h0, is_Throw (ApplyLanguage host lang h0).1)).
Proof.
  intros Hdisk Hcomments Hline Hblock Hok Hpre.
  pose proof (λ h', register_comments_run host language comments line block h'
                      Hcomments Hline Hblock Hok) as Hreg.
  assert (_ApplyLanguage host lang path h =
          match register_comments host language
                  ((h ++ [Opened (language_file host lang path)]) ++ pre) with
          | (Ok _, out) =>
              (build_styleMap host language substyleStartMap,
               Opened (language_file host lang path) :: pre ++ out)
          | (Throw e, out) =>
              (Throw e, Opened (language_file host lang path) :: pre ++ out)
          end) as Hrun.
  { rewrite _ApplyLanguage_run, Hdisk, apply_document_comments, Hpre.
    by destruct (register_comments host language _) as [[[]|e] out]. }
  rewrite Hreg in Hrun.
  assert (∀ r, (∀ h', register_comments host language h' = (r, line_events line)) →
               emits (λ ev, ¬ block_call ev) (_ApplyLanguage host lang path)) as Hquiet.
  { intros r Hr. apply _ApplyLanguage_no_block_call. intros language' Hdisk' h'.
    rewrite Hdisk in Hdisk'. injection Hdisk' as <-. rewrite Hr.
    apply line_events_no_block_call. }
  split; [|split; [|split]].
  - intros token ->. split; [done|]. rewrite Hrun. cbn [line_events as_string].
    destruct block as [[| |items|]|]; try (by eexists).
    destruct (subscript_int host _ 0 ≫= as_string) as [start|e]; [|by eexists].
    destruct (subscript_int host _ 1 ≫= as_string) as [finish|e]; by eexists.
  - intros Hnot.
    assert (∀ h', register_comments host language h' = (Ok (), line_events line))
      as Hskip.
    { intros h'. rewrite Hreg. destruct block as [[| |items|]|]; try done.
      by destruct (Hnot items). }
    split; [|by apply (Hquiet (Ok ()))].
    rewrite Hrun. destruct block as [[| |items|]|]; try done. by destruct (Hnot items).
  - intros a b others start finish -> Ha Hb. rewrite Hrun.
    change (subscript_int host _ 0 ≫= as_string) with (as_string (Some a)).
    change (subscript_int host _ 1 ≫= as_string) with (as_string (Some b)).
    by rewrite Ha, Hb.
  - intros items -> Hshort.
    assert (∃ e, ((subscript_int host (Some (Sequence items)) 0 ≫= as_string) ≫=
                  (λ _ : string, subscript_int host (Some (Sequence items)) 1 ≫= as_string))
                 = (Throw e : Result string) ∧ e ≠ BadFile ∧
                 (Forall (λ item, ¬ is_Throw (as_string (Some item))) items →
                  e = InvalidNode)) as (e & He & HnotBad & Hmissing).
    { destruct items as [|a [|b items]]; cbn [length] in Hshort; [by eexists| |lia].
      change (subscript_int host _ 0 ≫= as_string) with (as_string (Some a)).
      change (subscript_int host _ 1 ≫= as_string) with (Throw InvalidNode : Result string).
      pose proof (converts_as_string (Some a)) as Ha.
      destruct (as_string (Some a)) as [start|e] eqn:Hfirst; [by eexists|].
      exists e. split; [done|]. split; [by destruct (Ha e eq_refl)|].
      intros Hall. apply Forall_cons in Hall as [Hno _].
      rewrite Hfirst in Hno. by destruct Hno. }
    assert (∀ h', register_comments host language h' = (Throw e, line_events line))
      as Hthrow.
    { intros h'. rewrite Hreg.
      destruct (subscript_int host _ 0 ≫= as_string) as [start|e0].
      - change (subscript_int host (Some (Sequence items)) 1 ≫= as_string = Throw e) in He.
        by rewrite He.
      - by injection He as ->. }
    assert (_ApplyLanguage host lang path h =
            (Throw e, Opened (language_file host lang path) :: pre ++ line_events line))
      as Hends.
    { rewrite _ApplyLanguage_run, Hdisk, apply_document_comments, Hpre. by rewrite Hthrow. }
    assert (∀ h', is_Throw (apply_document host language h').1) as Hdocument.
    { intros h'. rewrite apply_document_comments.
      destruct (before_comments host language h') as [[ssm|e'] pre']; [|done].
      by rewrite Hthrow. }
    split; [by exists e|]. split.
    + intros h0. split; [|by apply (Hquiet (Throw e))].
      rewrite _ApplyLanguage_run, Hdisk. apply Hdocument.
    + intros Hin. apply (ApplyLanguage_throws host lang path Hin). intros st h'.
      rewrite apply_layer_content, Hdisk.
      specialize (Hdocument (h' ++ [Opened (language_file host lang path)])).
      by destruct (apply_document host language _) as [[m|e'] out].
Qed.

(** * The style map of one document *)

(** ** std::map operations *)

Lemma emplace_lookup_fresh (k v : Z) (m : gmap Z Z) :
  m !! k = None → emplace k v m !! k = Some v.
Proof. intros Hk. unfold emplace. rewrite Hk. apply lookup_insert_eq. Qed.

Lemma emplace_lookup_ne (k k' v : Z) (m : gmap Z Z) :
  k ≠ k' → emplace k v m !! k' = m !! k'.
Proof.
  intros Hne. unfold emplace. destruct (m !! k); [done|]. by apply lookup_insert_ne.
Qed.

Lemma emplace_keeps (k k' v v' : Z) (m : gmap Z Z) :
  m !! k' = Some v' → emplace k v m !! k' = Some v'.
Proof.
  intros Hk'. unfold emplace. destruct (m !! k) eqn:Hk; [done|].
  rewrite lookup_insert_ne; [done|]. congruence.
Qed.

Lemma emplace_lookup_inv (k k' v v' : Z) (m : gmap Z Z) :
  emplace k v m !! k' = Some v' → m !! k' = Some v' ∨ k' = k.
Proof.
  destruct (decide (k = k')) as [->|Hne]; [by right|].
  rewrite emplace_lookup_ne by done. by left.
Qed.

Lemma map_index_start (c c' : Z) (m : gmap Z Z) :
  (map_index 0 c m).1 = start_of m c ∧
  start_of (map_index 0 c m).2 c' = start_of m c'.
Proof.
  unfold map_index, start_of. destruct (m !! c) as [s|] eqn:Hc; simpl; [done|].
  split; [done|]. destruct (decide (c = c')) as [<-|Hne].
  - by rewrite lookup_insert_eq, Hc.
  - by rewrite lookup_insert_ne.
Qed.

(** ** The loop over one substyle group *)

Section substyles.
Context (host : Host).

Lemma add_substyle_inv key ssm sm i styleId ssm' sm' i' :
  add_substyle host key (ssm, sm, i) styleId = Ok (ssm', sm', i') →
  ∃ c v,
    as_int host (Some key) = Ok c ∧ as_int host (Some styleId) = Ok v ∧
    (∀ c', start_of ssm' c' = start_of ssm c') ∧
    sm' = emplace (start_of ssm c + i) v sm ∧ i' = i + 1.
Proof.
  unfold add_substyle.
  destruct (as_int host (Some key)) as [c|] eqn:Hkey; [|done].
  cbn [mbind Result_bind].
  pose proof (map_index_start c) as Hidx.
  destruct (map_index 0 c ssm) as [start ssm1] eqn:Hmi.
  destruct (as_int host (Some styleId)) as [v|] eqn:Hv; [|done].
  cbn [mbind Result_bind mret Result_ret]. intros [= <- <- <-].
  exists c, v. repeat split; try done.
  - intros c'. by destruct (Hidx c' ssm) as [_ ?]; rewrite Hmi in *.
  - destruct (Hidx c ssm) as [? _]. rewrite Hmi in *. simpl in *. by subst.
Qed.

Lemma add_substyles_loop key items ssm sm i ssm' sm' i' :
  for_each (add_substyle host key) items (ssm, sm, i) = Ok (ssm', sm', i') →
  (∀ c, start_of ssm' c = start_of ssm c) ∧
  (∀ k v, sm !! k = Some v → sm' !! k = Some v) ∧
  (∀ k v, sm' !! k = Some v →
     sm !! k = Some v ∨
     ∃ c (j : nat), as_int host (Some key) = Ok c ∧ (j < length items)%nat ∧
                    k = start_of ssm c + i + Z.of_nat j).
Proof.
  revert ssm sm i. induction items as [|styleId items IH]; intros ssm sm i.
  - intros [= <- <- <-]. by repeat split; eauto.
  - cbn [for_each].
    intros ([[ssm1 sm1] i1] & Hstep & Hrest)%result_bind_Ok_inv.
    apply add_substyle_inv in Hstep as (c & v & Hkey & Hv & Hstart & -> & ->).
    apply IH in Hrest as (Hstart' & Hmono & Hkeys). split; [|split].
    + intros c'. by rewrite Hstart', Hstart.
    + intros k w Hk. by apply Hmono, emplace_keeps.
    + intros k w Hk. apply Hkeys in Hk as [Hk|(c' & j & Hkey' & Hj & ->)].
      * apply emplace_lookup_inv in Hk as [Hk| ->]; [by left|].
        right. exists c, 0%nat. split; [done|]. split; [simpl; lia|lia].
      * right. exists c', (S j). split; [done|]. split; [simpl; lia|].
        rewrite Hstart. lia.
Qed.

Lemma add_substyles_addressing key items ssm sm i ssm' sm' i' c (j : nat) styleId v :
  for_each (add_substyle host key) items (ssm, sm, i) = Ok (ssm', sm', i') →
  as_int host (Some key) = Ok c →
  items !! j = Some styleId → as_int host (Some styleId) = Ok v →
  sm !! (start_of ssm c + i + Z.of_nat j) = None →
  sm' !! (start_of ssm c + i + Z.of_nat j) = Some v.
Proof.
  revert ssm sm i j. induction items as [|item items IH]; intros ssm sm i j; [done|].
  cbn [for_each].
  intros ([[ssm1 sm1] i1] & Hstep & Hrest)%result_bind_Ok_inv Hkey Hitem Hv Hfresh.
  apply add_substyle_inv in Hstep as (c0 & v0 & Hkey0 & Hv0 & Hstart & -> & ->).
  assert (c0 = c) as -> by congruence.
  destruct j as [|j]; simpl in Hitem.
  - assert (v0 = v) as -> by congruence.
    apply add_substyles_loop in Hrest as (_ & Hmono & _). apply Hmono.
    replace (start_of ssm c + i + Z.of_nat 0) with (start_of ssm c + i) in * by lia.
    by apply emplace_lookup_fresh.
  - replace (start_of ssm c + i + Z.of_nat (S j))
      with (start_of ssm1 c + (i + 1) + Z.of_nat j)
      in * by (rewrite Hstart; lia).
    eapply IH; try done.
    rewrite emplace_lookup_ne; [done|]. rewrite Hstart. lia.
Qed.
End substyles.

(** ** The loop over [substyles] *)

Lemma for_each_app {A St} (body : St → A → Result St) l1 l2 st :
  for_each body (l1 ++ l2) st = for_each body l1 st ≫= for_each body l2.
Proof.
  revert st. induction l1 as [|x l1 IH]; intros st; [done|].
  cbn [for_each app]. destruct (body st x) as [st'|e]; [|done]. apply IH.
Qed.

Section groups.
Context (host : Host).

Lemma add_group_inv ssm sm id ssm' sm' :
  add_group host (ssm, sm) id = Ok (ssm', sm') →
  match id.2 with
  | Sequence items =>
      ∃ i', for_each (add_substyle host id.1) items (ssm, sm, 0) = Ok (ssm', sm', i')
  | _ => ssm' = ssm ∧ sm' = sm
  end.
Proof.
  unfold add_group, add_substyles. destruct id.2 as [| |items|]; try by intros [= <- <-].
  intros ([[ssm1 sm1] i1] & Hloop & [= <- <-])%result_bind_Ok_inv. by exists i1.
Qed.

Lemma add_group_loop pairs ssm sm ssm' sm' :
  for_each (add_group host) pairs (ssm, sm) = Ok (ssm', sm') →
  (∀ c, start_of ssm' c = start_of ssm c) ∧
  (∀ k v, sm !! k = Some v → sm' !! k = Some v) ∧
  (∀ k v, sm' !! k = Some v →
     sm !! k = Some v ∨ ∃ id, id ∈ pairs ∧ addresses host (start_of ssm) id k).
Proof.
  revert ssm sm. induction pairs as [|id pairs IH]; intros ssm sm.
  - intros [= <- <-]. by repeat split; eauto.
  - cbn [for_each]. intros ([ssm1 sm1] & Hgroup & Hrest)%result_bind_Ok_inv.
    apply IH in Hrest as (Hstart' & Hmono' & Hkeys').
    apply add_group_inv in Hgroup.
    assert ((∀ c, start_of ssm1 c = start_of ssm c) ∧
            (∀ k v, sm !! k = Some v → sm1 !! k = Some v) ∧
            (∀ k v, sm1 !! k = Some v →
               sm !! k = Some v ∨ addresses host (start_of ssm) id k))
      as (Hstart & Hmono & Hkeys).
    { destruct id.2 as [| |items|] eqn:Hid;
        try (destruct Hgroup as [-> ->]; by repeat split; eauto).
      destruct Hgroup as [i' Hloop].
      apply add_substyles_loop in Hloop as (Hstart & Hmono & Hkeys).
      repeat split; [done..|]. intros k v Hk.
      apply Hkeys in Hk as [Hk|(c & j & Hkey & Hj & ->)]; [by left|].
      right. exists items, c, j. repeat split; try done. lia. }
    split; [|split].
    + intros c. by rewrite Hstart', Hstart.
    + intros k v Hk. by apply Hmono', Hmono.
    + intros k v Hk. apply Hkeys' in Hk as [Hk|(id' & Hin & Haddr)].
      * apply Hkeys in Hk as [Hk|Haddr]; [by left|].
        right. exists id. split; [apply list_elem_of_here|done].
      * right. exists id'. split; [by apply list_elem_of_further|].
        destruct Haddr as (items & c & j & ? & ? & ? & ->).
        exists items, c, j. by rewrite Hstart.
Qed.

Lemma add_group_addressing pre key items post ssm sm ssm' sm' c (j : nat) styleId v :
  for_each (add_group host) (pre ++ (key, Sequence items) :: post) (ssm, sm) =
    Ok (ssm', sm') →
  as_int host (Some key) = Ok c →
  items !! j = Some styleId → as_int host (Some styleId) = Ok v →
  sm !! (start_of ssm c + Z.of_nat j) = None →
  (∀ id, id ∈ pre → ¬ addresses host (start_of ssm) id (start_of ssm c + Z.of_nat j)) →
  sm' !! (start_of ssm c + Z.of_nat j) = Some v.
Proof.
  rewrite for_each_app.
  intros ([ssm1 sm1] & Hpre & Hrest)%result_bind_Ok_inv Hkey Hitem Hv Hfresh Hearlier.
  cbn [for_each] in Hrest.
  apply result_bind_Ok_inv in Hrest as ([ssm2 sm2] & Hgroup & Hpost).
  apply add_group_loop in Hpre as (Hstart1 & _ & Hkeys1).
  apply add_group_loop in Hpost as (_ & Hmono & _).
  apply add_group_inv in Hgroup as [i' Hloop]. cbn [fst snd] in Hloop.
  apply Hmono.
  pose proof (add_substyles_addressing host key items ssm1 sm1 0 ssm2 sm2 i' c j
                styleId v Hloop Hkey Hitem Hv) as Haddr.
  rewrite Hstart1, Z.add_0_r in Haddr. apply Haddr.
  destruct (sm1 !! (start_of ssm c + Z.of_nat j)) as [w|] eqn:Hk; [|done].
  apply Hkeys1 in Hk as [Hk|(id & Hin & Haddr')]; [congruence|].
  by destruct (Hearlier id Hin).
Qed.

Lemma build_styleMap_inv language ssm sm :
  build_styleMap host language ssm = Ok sm →
  ∃ styles0,
    direct_styles host language = Ok styles0 ∧
    match subscript (Some language) "substyles" with
    | Ok (Some (Map pairs)) =>
        ∃ ssm', for_each (add_group host) pairs (ssm, styles0) = Ok (ssm', sm)
    | Ok _ => sm = styles0
    | Throw _ => False
    end.
Proof.
  unfold build_styleMap.
  intros (styles0 & Hstyles & Hrest)%result_bind_Ok_inv. exists styles0. split; [done|].
  apply result_bind_Ok_inv in Hrest as (substyles & -> & Hrest).
  destruct substyles as [[| | |pairs]|]; try by injection Hrest.
  apply result_bind_Ok_inv in Hrest as ([ssm' sm'] & Hloop & [= ->]). by exists ssm'.
Qed.
End groups.

(** ** The allocations *)

Section allocations.
Context (host : Host).

Lemma first_allocation_app c h o1 o2 :
  first_allocation host c h (o1 ++ o2) =
  match first_allocation host c h o1 with
  | Some s => Some s
  | None => first_allocation host c (h ++ o1) o2
  end.
Proof.
  revert h. induction o1 as [|ev o1 IH]; intros h.
  - by rewrite app_nil_r.
  - cbn [app first_allocation].
    assert (first_allocation host c (h ++ [ev]) (o1 ++ o2) =
            match first_allocation host c (h ++ [ev]) o1 with
            | Some s => Some s
            | None => first_allocation host c (h ++ ev :: o1) o2
            end) as Hrec.
    { rewrite IH. by rewrite <-app_assoc. }
    destruct ev as [[]|]; try done; by case_decide.
Qed.

Lemma first_allocation_none c h out :
  Forall (λ ev, ¬ allocation ev) out → first_allocation host c h out = None.
Proof.
  intros Hall. revert h. induction Hall as [|ev out Hev _ IH]; intros h; [done|].
  cbn [first_allocation]. destruct ev as [[]|]; try done; by destruct Hev.
Qed.

Lemma emits_no_allocation {A} (m : EditorM A) c h :
  emits (λ ev, ¬ allocation ev) m → first_allocation host c h (m h).2 = None.
Proof. intros Hm. apply first_allocation_none, Hm. Qed.

Lemma allocate_group_start ssm id h ssm' out c :
  allocate_group host ssm id h = (Ok ssm', out) →
  ssm' !! c =
  match ssm !! c with
  | Some s => Some s
  | None => first_allocation host c h out
  end.
Proof.
  unfold allocate_group. destruct id.2 as [| |items|];
    try (intros [= <- <-]; by destruct (ssm !! c)).
  destruct (as_int host (Some id.1)) as [substyleId|e] eqn:Hid.
  2: { by rewrite (bind_lift_Throw _ _ _ _ eq_refl). }
  rewrite (bind_lift_Ok _ _ _ _ eq_refl), bind_run. cbn [perform].
  destruct ((set_identifiers host _ items ≫= _) _) as [r o] eqn:Hids.
  intros [= -> <-].
  apply bind_Ok_inv in Hids as (i & o1 & o2 & Hset & [= <- <-] & ->).
  cbn [app first_allocation]. rewrite app_nil_r.
  rewrite (first_allocation_none c _ o1); cycle 1.
  { pose proof (emits_set_identifiers host (λ ev, ¬ allocation ev)
      (editor_reply host (calls_of h) (SCI_ALLOCATESUBSTYLES substyleId (length items)))
      items) as Hemit.
    specialize (Hemit (λ _ _ H, H) (h ++ [Sent (SCI_ALLOCATESUBSTYLES substyleId (length items))])).
    by rewrite Hset in Hemit. }
  unfold emplace. case_decide as Hc; subst.
  - destruct (ssm !! c) eqn:Hssm; [done|]. by rewrite lookup_insert_eq.
  - destruct (ssm !! substyleId) eqn:Hssm; [by destruct (ssm !! c)|].
    rewrite lookup_insert_ne by done. by destruct (ssm !! c).
Qed.

Lemma allocate_groups_start pairs ssm h ssm' out c :
  for_each (allocate_group host) pairs ssm h = (Ok ssm', out) →
  ssm' !! c =
  match ssm !! c with
  | Some s => Some s
  | None => first_allocation host c h out
  end.
Proof.
  revert ssm h out. induction pairs as [|id pairs IH]; intros ssm h out.
  - intros [= <- <-]. by destruct (ssm !! c).
  - cbn [for_each]. intros (ssm1 & o1 & o2 & Hgroup & Hrest & ->)%bind_Ok_inv.
    apply (allocate_group_start _ _ _ _ _ c) in Hgroup. apply IH in Hrest.
    rewrite Hrest, Hgroup, first_allocation_app.
    destruct (ssm !! c); [done|]. by destruct (first_allocation host c h o1).
Qed.

Lemma allocate_identifiers_start language h ssm out c :
  allocate_identifiers host language h = (Ok ssm, out) →
  ssm !! c = first_allocation host c h out.
Proof.
  unfold allocate_identifiers.
  destruct (subscript (Some language) "identifiers") as [identifiers|e];
    [|by rewrite (bind_lift_Throw _ _ _ _ eq_refl)].
  rewrite (bind_lift_Ok _ _ _ _ eq_refl).
  destruct identifiers as [[| | |pairs]|]; try by intros [= <- <-].
  intros Hloop. by rewrite (allocate_groups_start _ _ _ _ _ c Hloop), lookup_empty.
Qed.

(** What a successful run on a document consists of. *)
Lemma apply_document_inv language h sm out :
  apply_document host language h = (Ok sm, out) →
  ∃ ssm,
    (∀ c, ssm !! c = first_allocation host c h out) ∧
    build_styleMap host language ssm = Ok sm.
Proof.
  unfold apply_document.
  intros ([] & o1 & out1 & Hlexer & H1 & ->)%bind_Ok_inv.
  apply bind_Ok_inv in H1 as ([] & o2 & out2 & Hprops & H2 & ->).
  apply bind_Ok_inv in H2 as ([] & o3 & out3 & Hkeys & H3 & ->).
  apply bind_Ok_inv in H3 as (ssm & o4 & out4 & Halloc & H4 & ->).
  apply bind_Ok_inv in H4 as ([] & o5 & out5 & Hcomments & H5 & ->).
  rewrite lift_run in H5. injection H5 as Hbuild <-.
  exists ssm. split; [|done]. intros c.
  rewrite (allocate_identifiers_start _ _ _ _ c Halloc).
  pose proof (emits_no_allocation (select_lexer host language) c h) as E1.
  pose proof (emits_no_allocation (set_properties host language) c (h ++ o1)) as E2.
  pose proof (emits_no_allocation (set_keywords host language) c ((h ++ o1) ++ o2)) as E3.
  pose proof (emits_no_allocation (register_comments host language) c
                (((((h ++ o1) ++ o2) ++ o3) ++ o4))) as E5.
  rewrite Hlexer in E1. rewrite Hprops in E2. rewrite Hkeys in E3.
  rewrite Hcomments in E5. cbn [snd] in *.
  rewrite !first_allocation_app.
  rewrite E1 by (by apply emits_select_lexer; intros; intros []).
  rewrite E2 by (by apply emits_set_properties; intros; intros []).
  rewrite E3 by (by apply emits_set_keywords; intros; intros []).
  rewrite E5 by (by apply emits_register_comments; intros; intros []).
  by destruct (first_allocation host c _ o4).
Qed.
End allocations.

(** ** The claims about sub-styles *)

Lemma _ApplyLanguage_inv host lang path language h sm out :
  disk host (language_file host lang path) = Document language →
  _ApplyLanguage host lang path h = (Ok sm, out) →
  ∃ ssm,
    (∀ c, ssm !! c = first_allocation host c h out) ∧
    build_styleMap host language ssm = Ok sm.
Proof.
  intros Hdisk. rewrite _ApplyLanguage_run, Hdisk.
  destruct (apply_document host language _) as [r out'] eqn:Hrun. cbn [fst snd].
  intros [= -> <-]. apply apply_document_inv in Hrun as (ssm & Hssm & Hbuild).
  by exists ssm.
Qed.

(** C2: the code at the failing input. The group of class 20 has no
    identifier group, and its two values are stored under the keys 0 and 1. *)
Lemma unanchored_substyles_at_zero :
  ∃ out, ApplyLanguage unanchored_host "cpp" [] = (Ok {[0 := 50; 1 := 51]}, out).
Proof. eexists. vm_compute. reflexivity. Qed.

Lemma addresses_ext host (start start' : Z → Z) id k :
  (∀ c, start c = start' c) → addresses host start id k → addresses host start' id k.
Proof.
  intros Hext (items & c & j & ? & ? & ? & ->). exists items, c, j. by rewrite Hext.
Qed.

(** C3, as stated, fails: with the direct style [128: 7] in the document,
    the group of class 20 (two identifiers, allocation start 128, values
    50 and 51) leaves key 128 at 7. *)
Lemma substyle_collision_keeps_style :
  ∃ sm out,
    _ApplyLanguage colliding_host "cpp" "/system/data" [] = (Ok sm, out) ∧
    first_allocation colliding_host 20 [] out = Some 128 ∧
    sm !! 128 = Some 7 ∧ sm !! 128 ≠ Some 50 ∧ sm !! 129 = Some 51.
Proof. eexists _, _. split; [vm_compute; reflexivity|]. by vm_compute. Qed.

(** C3, amended. In a document [_ApplyLanguage] has applied, take an entry
    of [substyles] for the lexical class [c], a sequence, and let [S] be the
    editor's reply to the first allocation for [c]. The value at position
    [j] of the sequence is in the style map under the key [S + j],
    provided that key had no value yet: it is not a key of the direct
    styles, and no earlier entry of [substyles] addresses it. Besides the
    direct styles, the map has no keys but those the entries of [substyles]
    address. *)
Theorem substyle_addressing (host : Host) (lang : string) (path : BPath)
    (language : Node) (h : list Event) (sm : gmap Z Z) (out : list Event)
    (c S : Z) (pre post : list (Node * Node)) (key : Node) (items : list Node) :
  disk host (language_file host lang path) = Document language →
  _ApplyLanguage host lang path h = (Ok sm, out) →
  first_allocation host c h out = Some S →
  subscript (Some language) "substyles" =
    Ok (Some (Map (pre ++ (key, Sequence items) :: post))) →
  as_int host (Some key) = Ok c →
  (∀ (j : nat) styleId v,
     items !! j = Some styleId → as_int host (Some styleId) = Ok v →
     (∀ styles0, direct_styles host language = Ok styles0 →
        styles0 !! (S + Z.of_nat j) = None) →
     (∀ id, id ∈ pre →
        ¬ addresses host (λ c', default 0 (first_allocation host c' h out)) id
            (S + Z.of_nat j)) →
     sm !! (S + Z.of_nat j) = Some v) ∧
  ∀ k v styles0,
    direct_styles host language = Ok styles0 → sm !! k = Some v →
    styles0 !! k = Some v ∨
    ∃ id, id ∈ pre ++ (key, Sequence items) :: post ∧
          addresses host (λ c', default 0 (first_allocation host c' h out)) id k.
Proof.
  intros Hdisk Hrun HS Hsub Hkey.
  apply (_ApplyLanguage_inv host lang path language h sm out Hdisk) in Hrun
    as (ssm & Hssm & Hbuild).
  apply build_styleMap_inv in Hbuild as (styles0 & Hstyles & Hloop).
  rewrite Hsub in Hloop. destruct Hloop as [ssm' Hloop].
  assert (∀ c', start_of ssm c' = default 0 (first_allocation host c' h out)) as Hstart.
  { intros c'. unfold start_of. by rewrite Hssm. }
  assert (start_of ssm c = S) as HS'.
  { by rewrite Hstart, HS. }
  split.
  - intros j styleId v Hitem Hv Hdirect Hearlier. rewrite <-HS'.
    eapply add_group_addressing; try done.
    + rewrite HS'. by apply Hdirect.
    + intros id Hin Haddr. apply (Hearlier id Hin). rewrite <-HS'.
      by apply (addresses_ext host (start_of ssm)).
  - intros k v styles0' Hstyles' Hk.
    assert (styles0' = styles0) as -> by congruence.
    apply add_group_loop in Hloop as (_ & _ & Hkeys).
    apply Hkeys in Hk as [Hk|(id & Hin & Haddr)]; [by left|].
    right. exists id. split; [done|]. by apply (addresses_ext host (start_of ssm)).
Qed.

(** C10. In the style map [_ApplyLanguage] returns for a document, every
    entry of the direct styles is there with its value, and so is every
    entry the map held after any number of the entries of [substyles] had
    been processed: a substyle value never takes the place of a value that
    is already there. *)
Theorem substyles_never_replace (host : Host) (lang : string) (path : BPath)
    (language : Node) (h : list Event) (sm : gmap Z Z) (out : list Event)
    (styles0 : gmap Z Z) :
  disk host (language_file host lang path) = Document language →
  _ApplyLanguage host lang path h = (Ok sm, out) →
  direct_styles host language = Ok styles0 →
  (∀ k v, styles0 !! k = Some v → sm !! k = Some v) ∧
  (∀ pre post,
     subscript (Some language) "substyles" = Ok (Some (Map (pre ++ post))) →
     ∃ ssm ssm1 sm1,
       (∀ c, ssm !! c = first_allocation host c h out) ∧
       for_each (add_group host) pre (ssm, styles0) = Ok (ssm1, sm1) ∧
       ∀ k v, sm1 !! k = Some v → sm !! k = Some v).
Proof.
  intros Hdisk Hrun Hstyles.
  apply (_ApplyLanguage_inv host lang path language h sm out Hdisk) in Hrun
    as (ssm & Hssm & Hbuild).
  apply build_styleMap_inv in Hbuild as (styles0' & Hstyles' & Hloop).
  assert (styles0' = styles0) as -> by congruence. split.
  - destruct (subscript (Some language) "substyles") as [[[| | |pairs]|]|];
      try (by subst); try done.
    destruct Hloop as [ssm' Hloop]. by apply add_group_loop in Hloop as (_ & Hmono & _).
  - intros pre post Hsub. rewrite Hsub in Hloop. destruct Hloop as [ssm' Hloop].
    rewrite for_each_app in Hloop.
    apply result_bind_Ok_inv in Hloop as ([ssm1 sm1] & Hpre & Hpost).
    exists ssm, ssm1, sm1. split; [done|]. split; [done|].
    by apply add_group_loop in Hpost as (_ & Hmono & _).
Qed.

(** * The theorems at concrete inputs *)

Lemma contiguous_reply_since_reset l : replies_since_reset (host_with l).
Proof.
  intros past since call. cbn [editor_reply host_with]. unfold contiguous_reply.
  destruct call; try done. f_equal.
  generalize 0 at 1. induction past as [|c past IH]; intros n; [done|].
  destruct c; cbn [app allocated]; apply IH.
Qed.

Lemma catalog_host_wellformed : catalog_wellformed catalog_host.
Proof.
  intros path Hin. unfold data_directories in Hin. cbn [fmap list_fmap] in Hin.
  repeat (apply elem_of_cons in Hin as [->|Hin]); [..|by apply elem_of_nil in Hin];
    vm_compute; try done; repeat constructor; by intros [].
Qed.

Lemma ApplyLanguage_merge_witness :
  ({[0 := 10; 1 := 99; 128 := 50; 129 := 51]} : gmap Z Z) =
    merge_layers
      (layer_styleMaps layered_host "cpp" (data_directories layered_host)
         ([] ++ [Sent SCI_FREESUBSTYLES])) ∧
  ∀ k, ({[0 := 10; 1 := 99; 128 := 50; 129 := 51]} : gmap Z Z) !! k =
    last (omap (λ m : gmap Z Z, m !! k)
            (layer_styleMaps layered_host "cpp" (data_directories layered_host)
               ([] ++ [Sent SCI_FREESUBSTYLES]))).
Proof.
  apply (ApplyLanguage_merge layered_host "cpp" [] _
           (ApplyLanguage layered_host "cpp" []).2).
  vm_compute. reflexivity.
Defined.

Lemma LoadLanguages_catalog_witness :
  ∃ c', LoadLanguages catalog_host empty_catalog = (Ok (), c') ∧
    (∀ ext, sExtensions c' !! ext =
       from_option Some (sExtensions empty_catalog !! ext)
         (last_claim ext (catalog_entries catalog_host))) ∧
    sLanguages c' =
      sLanguages empty_catalog ++
      filter (λ id, id ∉ sLanguages empty_catalog)
        (nub ((catalog_entries catalog_host).*1.*1)) ∧
    (∀ id, sMenuItems c' !! id =
       from_option Some (sMenuItems empty_catalog !! id)
         (last_name id (catalog_entries catalog_host))).
Proof.
  apply (LoadLanguages_catalog catalog_host empty_catalog), catalog_host_wellformed.
Defined.

Lemma ApplyLanguage_resets_first_witness :
  ApplyLanguage scenario_host "cpp" [Sent (SCI_ALLOCATESUBSTYLES 20 2)] =
  ApplyLanguage scenario_host "cpp" [].
Proof.
  apply (ApplyLanguage_resets_first scenario_host "cpp" []),
    contiguous_reply_since_reset.
Defined.

Lemma lexer_selection_witness :
  ∃ rest,
    (_ApplyLanguage scenario_host "cpp" "/system/data" []).2 =
      Opened (language_file scenario_host "cpp" "/system/data") ::
      Sent (SCI_SETLEXERLANGUAGE "cpp") :: rest ∧
    Forall (λ ev, ¬ lexer_call ev) rest.
Proof.
  apply (lexer_selection scenario_host "cpp" "/system/data" scenario_document []);
    reflexivity.
Defined.

Lemma comment_tokens_witness :
  _ApplyLanguage commented_host "cpp" "/system/data" [] =
    (Ok ∅,
     [Opened "/system/data/Koder/languages/cpp.yaml"; Sent (SCI_SETLEXER 3);
      Sent (SetCommentLineToken "//"); Sent (SetCommentBlockTokens "/*" "*/")]) ∧
  (∃ e,
     _ApplyLanguage short_block_host "cpp" "/system/data" [] =
       (Throw e,
        [Opened "/system/data/Koder/languages/cpp.yaml"; Sent (SCI_SETLEXER 3);
         Sent (SetCommentLineToken "//")]) ∧
     e ≠ BadFile ∧
     (Forall (λ item, ¬ is_Throw (as_string (Some item))) [str "/*"] → e = InvalidNode)) ∧
  Forall (λ ev, ¬ block_call ev) (_ApplyLanguage short_block_host "cpp" "/system/data" []).2 ∧
  is_Throw (ApplyLanguage short_block_host "cpp" []).1.
Proof.
  destruct (comment_tokens commented_host "cpp" "/system/data" commented_document
              (Map [(str "line", str "//"); (str "block", Sequence [str "/*"; str "*/"])])
              (Some (str "//")) (Some (Sequence [str "/*"; str "*/"])) []
              ∅ [Sent (SCI_SETLEXER 3)])
    as (_ & _ & Hpair & _); try reflexivity.
  { right. simpl. tauto. }
  destruct (comment_tokens short_block_host "cpp" "/system/data" short_block_document
              (Map [(str "line", str "//"); (str "block", Sequence [str "/*"])])
              (Some (str "//")) (Some (Sequence [str "/*"])) []
              ∅ [Sent (SCI_SETLEXER 3)])
    as (_ & _ & _ & Hshort); try reflexivity.
  { right. simpl. tauto. }
  destruct (Hshort [str "/*"] eq_refl) as (Hthrow & Hevery & Hall); [simpl; lia|].
  split; [exact (Hpair (str "/*") (str "*/") [] "/*" "*/" eq_refl eq_refl eq_refl)|].
  split; [exact Hthrow|]. split; [exact (proj2 (Hevery []))|].
  apply Hall. vm_compute. apply list_elem_of_here.
Defined.

Lemma substyle_addressing_witness :
  ({[1 := 99; 128 := 50; 129 := 51]} : gmap Z Z) !! (128 + Z.of_nat 1) = Some 51.
Proof.
  eapply (substyle_addressing scenario_host "cpp" "/system/data" scenario_document []
            _ (_ApplyLanguage scenario_host "cpp" "/system/data" []).2
            20 128 [] [] (str "20") [str "50"; str "51"]);
    try (vm_compute; reflexivity).
  - intros styles0 [= <-]. vm_compute. reflexivity.
  - intros id Hin. by apply elem_of_nil in Hin.
Defined.

Lemma substyles_never_replace_witness :
  ({[1 := 99; 128 := 7; 129 := 51]} : gmap Z Z) !! 128 = Some 7.
Proof.
  eapply (substyles_never_replace colliding_host "cpp" "/system/data" colliding_document []
            _ (_ApplyLanguage colliding_host "cpp" "/system/data" []).2
            {[1 := 99; 128 := 7]});
    vm_compute; reflexivity.
Defined.

(** * More about the catalog *)

#[export] Instance string_le_total : Total string_le.
Proof. intros s1 s2. apply String.leb_total. Qed.

#[export] Instance string_le_antisym : AntiSymm (=) string_le.
Proof. intros s1 s2. apply String.leb_antisym. Qed.

#[export] Instance string_le_trans : Transitive string_le.
Proof.
  unfold string_le, String.leb. intros a.
  induction a as [|x a IH]; intros [|y b] [|z c]; simpl; try done.
  unfold Ascii.compare.
  destruct (N.compare_spec (N_of_ascii x) (N_of_ascii y)) as [Hxy|Hxy|Hxy];
    destruct (N.compare_spec (N_of_ascii y) (N_of_ascii z)) as [Hyz|Hyz|Hyz];
    destruct (N.compare_spec (N_of_ascii x) (N_of_ascii z)) as [Hxz|Hxz|Hxz];
    try done; try lia.
  apply IH.
Qed.

Lemma catalog_eq (c1 c2 : Catalog) :
  sLanguages c1 = sLanguages c2 → sMenuItems c1 = sMenuItems c2 →
  sExtensions c1 = sExtensions c2 → c1 = c2.
Proof. destruct c1, c2. simpl. by intros -> -> ->. Qed.

(** X1. [SortAlphabetically] leaves the known ids in ascending order, the
    same ids as many times as before, and does not touch the display names
    and the extension index; as only one arrangement of the ids is
    ascending, any sorting algorithm gives this result. *)
Theorem SortAlphabetically_sorted (c : Catalog) :
  Sorted string_le (sLanguages (SortAlphabetically c)) ∧
  sLanguages (SortAlphabetically c) ≡ₚ sLanguages c ∧
  sMenuItems (SortAlphabetically c) = sMenuItems c ∧
  sExtensions (SortAlphabetically c) = sExtensions c ∧
  ∀ l, Sorted string_le l → l ≡ₚ sLanguages c → l = sLanguages (SortAlphabetically c).
Proof.
  cbn [SortAlphabetically sLanguages sMenuItems sExtensions].
  split; [apply (Sorted_merge_sort string_le)|].
  split; [apply merge_sort_Permutation|]. split; [done|]. split; [done|].
  intros l Hsorted Hperm. apply (Sorted_unique string_le); [done| |].
  - apply (Sorted_merge_sort string_le).
  - by rewrite merge_sort_Permutation.
Qed.

(** X2. Sorting twice is sorting once, and sorting changes nothing in what
    [GetLanguageForExtension] answers. *)
Theorem SortAlphabetically_idempotent (c : Catalog) :
  SortAlphabetically (SortAlphabetically c) = SortAlphabetically c ∧
  ∀ ext,
    (GetLanguageForExtension ext (SortAlphabetically c)).1 =
    (GetLanguageForExtension ext c).1.
Proof.
  split.
  - apply catalog_eq; try done. cbn [SortAlphabetically sLanguages].
    apply (Sorted_unique string_le).
    + apply (Sorted_merge_sort string_le).
    + apply (Sorted_merge_sort string_le).
    + apply merge_sort_Permutation.
  - intros ext. unfold GetLanguageForExtension, map_index.
    cbn [SortAlphabetically sExtensions].
    case_bool_decide as Hext; [|done]. destruct Hext as [lang Hext]. by rewrite Hext.
Qed.

(** ** What every run of LoadLanguages keeps *)

Section invariant.
Context (host : Host) (P : Catalog → Prop).
Context (Hregister : ∀ name menuitem extensions c,
  P c → P (register_language name menuitem extensions c)).

Lemma load_entries_invariant languages c :
  P c → P (for_each load_entry languages () c).2.
Proof.
  revert c. induction languages as [|language languages IH]; intros c Hc; [done|].
  cbn [for_each]. unfold mbind at 1, CatalogM_bind. rewrite load_entry_run.
  destruct (decode_entry language) as [[[name menuitem] extensions]|e]; [|done].
  apply IH. by apply Hregister.
Qed.

Lemma load_layer_invariant path c : P c → P (load_layer host path () c).2.
Proof.
  intros Hc. unfold load_layer, _LoadLanguages.
  cbn [try_catch CatalogM_try lift]. unfold mbind at 1, CatalogM_bind.
  destruct (YAML_LoadFile host (catalog_file host path)) as [languages|e].
  - pose proof (load_entries_invariant (iterate (Some languages)) c Hc) as Hloop.
    destruct (for_each load_entry _ () c) as [[[]|e] c']; [done|].
    by destruct (bool_decide _).
  - by destruct (bool_decide _).
Qed.

Lemma LoadLanguages_invariant c : P c → P (LoadLanguages host c).2.
Proof.
  intros Hc. unfold LoadLanguages, DoInAllDataDirectories, mbind, CatalogM_bind.
  pose proof (load_layer_invariant (find_directory host B_SYSTEM_DATA_DIRECTORY) c Hc) as H1.
  destruct (load_layer host _ () c) as [[[]|?] c1]; [|done].
  pose proof (load_layer_invariant (find_directory host B_USER_DATA_DIRECTORY) c1 H1) as H2.
  destruct (load_layer host _ () c1) as [[[]|?] c2]; [|done].
  pose proof (load_layer_invariant
                (find_directory host B_SYSTEM_NONPACKAGED_DATA_DIRECTORY) c2 H2) as H3.
  destruct (load_layer host _ () c2) as [[[]|?] c3]; [|done].
  apply (load_layer_invariant _ c3 H3).
Qed.
End invariant.

Lemma register_language_extensions name menuitem extensions c ext :
  sExtensions (register_language name menuitem extensions c) !! ext =
  if decide (ext ∈ extensions) then Some name else sExtensions c !! ext.
Proof. apply lookup_foldl_insert. Qed.

Lemma register_language_languages name menuitem extensions c id :
  id ∈ sLanguages (register_language name menuitem extensions c) ↔
  id ∈ sLanguages c ∨ id = name.
Proof.
  cbn [register_language sLanguages]. case_bool_decide; set_solver.
Qed.

(** X3. Whatever the documents hold, and also when it ends with an
    exception, [LoadLanguages] only adds: the list of known ids keeps its
    old content as a prefix and stays free of duplicates, and no extension
    and no display name is removed. *)
Theorem LoadLanguages_only_grows (host : Host) (c : Catalog) :
  sLanguages c `prefix_of` sLanguages (LoadLanguages host c).2 ∧
  (NoDup (sLanguages c) → NoDup (sLanguages (LoadLanguages host c).2)) ∧
  (∀ ext, is_Some (sExtensions c !! ext) →
          is_Some (sExtensions (LoadLanguages host c).2 !! ext)) ∧
  (∀ id, is_Some (sMenuItems c !! id) →
         is_Some (sMenuItems (LoadLanguages host c).2 !! id)).
Proof.
  split; [|split; [|split]].
  - apply (LoadLanguages_invariant host (λ c', sLanguages c `prefix_of` sLanguages c'));
      [|done].
    intros name menuitem extensions c' Hc'. cbn [register_language sLanguages].
    case_bool_decide; [done|]. by apply prefix_app_r.
  - apply (LoadLanguages_invariant host (λ c', NoDup (sLanguages c'))).
    intros name menuitem extensions c' Hc'. cbn [register_language sLanguages].
    case_bool_decide; [done|]. apply NoDup_app. split; [done|].
    split; [set_solver|]. apply NoDup_singleton.
  - intros ext Hext.
    apply (LoadLanguages_invariant host (λ c', is_Some (sExtensions c' !! ext))); [|done].
    intros name menuitem extensions c' Hc'. rewrite register_language_extensions.
    by case_decide.
  - intros id Hid.
    apply (LoadLanguages_invariant host (λ c', is_Some (sMenuItems c' !! id))); [|done].
    intros name menuitem extensions c' Hc'. cbn [register_language sMenuItems].
    destruct (decide (name = id)) as [->|Hne].
    + by rewrite lookup_insert_eq.
    + by rewrite lookup_insert_ne.
Qed.

(** X4. A consistent catalog (every extension indexed to a known language,
    the known languages being those with a display name) stays consistent
    through [LoadLanguages], also when that ends with an exception, and
    through [SortAlphabetically]; in a consistent catalog the language
    [GetLanguageForExtension] finds is a known one with a display name. *)
Theorem catalog_stays_consistent (host : Host) (c : Catalog) :
  catalog_consistent c →
  catalog_consistent (LoadLanguages host c).2 ∧
  catalog_consistent (SortAlphabetically c) ∧
  ∀ ext lang c',
    GetLanguageForExtension ext c = (true, lang, c') →
    lang ∈ sLanguages c ∧ is_Some (sMenuItems c !! lang).
Proof.
  intros Hc. split; [|split].
  - apply (LoadLanguages_invariant host catalog_consistent); [|done].
    intros name menuitem extensions c' [Hexts Hmenu]. split.
    + intros ext id. rewrite register_language_extensions, register_language_languages.
      case_decide; [intros [= <-]; by right|]. intros Hext. left. by eapply Hexts.
    + intros id. rewrite register_language_languages. cbn [register_language sMenuItems].
      destruct (decide (name = id)) as [->|Hne].
      * rewrite lookup_insert_eq. split; eauto.
      * rewrite lookup_insert_ne by done. rewrite <-Hmenu. split; [|by left].
        by intros [|].
  - destruct Hc as [Hexts Hmenu]. split.
    + intros ext id Hext. cbn [SortAlphabetically sExtensions sLanguages] in *.
      rewrite merge_sort_Permutation. by eapply Hexts.
    + intros id. cbn [SortAlphabetically sMenuItems sLanguages].
      rewrite merge_sort_Permutation. apply Hmenu.
  - intros ext lang c'. unfold GetLanguageForExtension, map_index.
    case_bool_decide as Hext; [|done]. destruct Hext as [lang' Hext]. rewrite Hext.
    intros [= <- _]. destruct Hc as [Hexts Hmenu]. split; [by eapply Hexts|].
    apply Hmenu. by eapply Hexts.
Qed.

Lemma elem_of_nub (l : list string) x : x ∈ nub l ↔ x ∈ l.
Proof.
  induction l as [|y l IH]; [done|]. cbn [nub].
  rewrite !elem_of_cons, list_elem_of_filter, IH.
  destruct (decide (x = y)); naive_solver.
Qed.

Lemma filter_known (seen l : list string) :
  (∀ id, id ∈ l → id ∈ seen) → filter (λ id, id ∉ seen) l = [].
Proof.
  induction l as [|x l IH]; intros Hall; [done|].
  rewrite filter_cons, decide_False by (intros Hx; apply Hx, Hall; left).
  apply IH. intros id Hid. apply Hall. by right.
Qed.

(** X5. Loading the same well-formed catalog documents again changes
    nothing: [LoadLanguages] run on the catalog it produced returns that
    catalog. *)
Theorem LoadLanguages_idempotent (host : Host) (c c1 : Catalog) :
  catalog_wellformed host →
  LoadLanguages host c = (Ok (), c1) →
  LoadLanguages host c1 = (Ok (), c1).
Proof.
  intros Hwf. rewrite !LoadLanguages_run by done. intros [= <-]. f_equal.
  set (entries := catalog_entries host). apply catalog_eq.
  - rewrite (sLanguages_foldl (foldl register_entry c entries)).
    rewrite filter_known; [by rewrite app_nil_r|].
    intros id Hid.
    rewrite sLanguages_foldl. apply elem_of_app.
    destruct (decide (id ∈ sLanguages c)); [by left|right].
    by apply list_elem_of_filter.
  - apply map_eq. intros id. rewrite !sMenuItems_foldl.
    by destruct (last_name id entries).
  - apply map_eq. intros ext. rewrite !sExtensions_foldl.
    by destruct (last_claim ext entries).
Qed.

Lemma LoadLanguages_idempotent_witness :
  LoadLanguages catalog_host (LoadLanguages catalog_host empty_catalog).2 =
  (Ok (), (LoadLanguages catalog_host empty_catalog).2).
Proof.
  apply (LoadLanguages_idempotent catalog_host empty_catalog).
  - apply catalog_host_wellformed.
  - vm_compute. reflexivity.
Defined.

Lemma catalog_stays_consistent_witness :
  catalog_consistent (LoadLanguages catalog_host empty_catalog).2.
Proof.
  apply (catalog_stays_consistent catalog_host empty_catalog). split.
  - intros ext id. cbn [empty_catalog sExtensions]. by rewrite lookup_empty.
  - intros id. cbn [empty_catalog sLanguages sMenuItems]. rewrite lookup_empty.
    split; [by intros ?%elem_of_nil|by intros [? [=]]].
Defined.

(** X15. After [LoadLanguages] has read well-formed catalog documents,
    [GetLanguageForExtension] finds for an extension the language of the
    last entry, in layer order, that lists it; for an extension no entry
    lists it answers as the catalog before the load would have; and it
    leaves the loaded catalog as it is. *)
Theorem lookup_after_load (host : Host) (c c' : Catalog) (ext : string) :
  catalog_wellformed host →
  LoadLanguages host c = (Ok (), c') →
  GetLanguageForExtension ext c' =
  match last_claim ext (catalog_entries host) with
  | Some id => (true, id, c')
  | None => ((GetLanguageForExtension ext c).1, c')
  end.
Proof.
  intros Hwf. rewrite LoadLanguages_run by done. intros [= <-].
  unfold GetLanguageForExtension, map_index. rewrite sExtensions_foldl.
  set (c' := foldl register_entry c (catalog_entries host)).
  destruct (last_claim ext (catalog_entries host)) as [id|]; cbn [from_option].
  - rewrite bool_decide_eq_true_2 by eauto. by destruct c'.
  - destruct (sExtensions c !! ext) as [id|] eqn:Hext.
    + rewrite !bool_decide_eq_true_2 by eauto. by destruct c'.
    + rewrite !bool_decide_eq_false_2; [done|by intros [? [=]]..].
Qed.

Lemma lookup_after_load_witness :
  GetLanguageForExtension "h" (LoadLanguages catalog_host empty_catalog).2 =
  match last_claim "h" (catalog_entries catalog_host) with
  | Some id => (true, id, (LoadLanguages catalog_host empty_catalog).2)
  | None => ((GetLanguageForExtension "h" empty_catalog).1,
             (LoadLanguages catalog_host empty_catalog).2)
  end.
Proof.
  apply (lookup_after_load catalog_host empty_catalog).
  - apply catalog_host_wellformed.
  - vm_compute. reflexivity.
Defined.

(** * More about ApplyLanguage *)

(** ** Layers with and without a document *)

Lemma layers_missing host lang paths styleMapping h :
  (∀ path, path ∈ paths → disk host (language_file host lang path) = Missing) →
  for_each (λ st path, apply_layer host lang path st) paths styleMapping h =
  (Ok styleMapping, (λ path, Opened (language_file host lang path)) <$> paths).
Proof.
  revert h. induction paths as [|path paths IH]; intros h Hmissing; [done|].
  cbn [for_each]. rewrite bind_run, apply_layer_content.
  rewrite (Hmissing path) by apply list_elem_of_here.
  rewrite IH; [done|]. intros p Hp. apply Hmissing. by apply list_elem_of_further.
Qed.

Lemma layers_app host lang pre post styleMapping h :
  for_each (λ st path, apply_layer host lang path st) (pre ++ post) styleMapping h =
  (for_each (λ st path, apply_layer host lang path st) pre styleMapping ≫=
   for_each (λ st path, apply_layer host lang path st) post) h.
Proof.
  revert styleMapping h. induction pre as [|path pre IH]; intros st h.
  - cbn [app for_each]. rewrite bind_run. cbn. rewrite app_nil_r.
    by destruct (for_each (M:=EditorM) _ post st h).
  - cbn [app for_each]. rewrite !bind_run.
    destruct (apply_layer host lang path st h) as [[st'|e] o1]; [|done].
    rewrite IH, !bind_run.
    destruct (for_each (M:=EditorM) _ pre st' (h ++ o1)) as [[st''|e] o2]; [|done].
    rewrite <-!app_assoc.
    destruct (for_each (M:=EditorM) _ post st'' (h ++ o1 ++ o2)) as [r o3]. by rewrite <-app_assoc.
Qed.

Lemma layer_document_then_missing host lang path post language styleMapping h :
  disk host (language_file host lang path) = Document language →
  (∀ p, p ∈ post → disk host (language_file host lang p) = Missing) →
  for_each (λ st p, apply_layer host lang p st) (path :: post) styleMapping h =
  match apply_document host language (h ++ [Opened (language_file host lang path)]) with
  | (Ok m, out) =>
      (Ok (m ∪ styleMapping),
       Opened (language_file host lang path) :: out ++
       ((λ p, Opened (language_file host lang p)) <$> post))
  | (Throw e, out) => (Throw e, Opened (language_file host lang path) :: out)
  end.
Proof.
  intros Hdoc Hmissing. cbn [for_each]. rewrite bind_run, apply_layer_content, Hdoc.
  destruct (apply_document host language _) as [[m|e] out]; [|done].
  by rewrite layers_missing.
Qed.

(** X6. When no layer has a document for the language, [ApplyLanguage]
    returns the empty style map: it resets the sub-styles, looks for the
    four files in layer order and sends nothing else. *)
Theorem ApplyLanguage_no_documents (host : Host) (lang : string) (h : list Event) :
  (∀ path, path ∈ data_directories host →
           disk host (language_file host lang path) = Missing) →
  ApplyLanguage host lang h =
  (Ok ∅,
   Sent SCI_FREESUBSTYLES ::
   ((λ path, Opened (language_file host lang path)) <$> data_directories host)).
Proof.
  intros Hmissing. rewrite ApplyLanguage_run. by rewrite layers_missing.
Qed.

(** X7. When one layer only has a document for the language, [ApplyLanguage]
    is that document applied to a freshly reset editor: it returns the
    style map of the document as it is, or ends with the document's
    exception, and the events are the reset, the look-ups of the layers
    before, the events of the document and, unless it threw, the look-ups
    of the layers after. *)
Theorem ApplyLanguage_single_layer (host : Host) (lang : string) (h : list Event)
    (pre post : list BPath) (path : BPath) (language : Node) :
  data_directories host = pre ++ path :: post →
  (∀ p, p ∈ pre ++ post → disk host (language_file host lang p) = Missing) →
  disk host (language_file host lang path) = Document language →
  ApplyLanguage host lang h =
  match
    apply_document host language
      (h ++ Sent SCI_FREESUBSTYLES ::
         ((λ p, Opened (language_file host lang p)) <$> pre ++ [path]))
  with
  | (Ok m, out) =>
      (Ok m,
       Sent SCI_FREESUBSTYLES ::
       ((λ p, Opened (language_file host lang p)) <$> pre ++ [path]) ++ out ++
       ((λ p, Opened (language_file host lang p)) <$> post))
  | (Throw e, out) =>
      (Throw e,
       Sent SCI_FREESUBSTYLES ::
       ((λ p, Opened (language_file host lang p)) <$> pre ++ [path]) ++ out)
  end.
Proof.
  intros Hdirs Hmissing Hdoc.
  set (h' := h ++ Sent SCI_FREESUBSTYLES ::
               ((λ p, Opened (language_file host lang p)) <$> pre ++ [path])).
  rewrite ApplyLanguage_run, Hdirs, layers_app.
  erewrite bind_Ok_run
    by (apply layers_missing; intros p Hp; apply Hmissing, elem_of_app; by left).
  rewrite (layer_document_then_missing host lang path post language) by
    (try done; intros p Hp; apply Hmissing, elem_of_app; by right).
  match goal with
  | |- context [apply_document host language ?x] =>
      replace x with h'
        by (subst h'; rewrite fmap_app; cbn [fmap list_fmap]; by rewrite <-!app_assoc)
  end.
  rewrite fmap_app. cbn [fmap list_fmap].
  destruct (apply_document host language h') as [[m|e] out]; cbn [fst snd].
  - rewrite map_union_empty. by rewrite <-?app_assoc.
  - by rewrite <-?app_assoc.
Qed.

(** ** The files a resolution opens *)

Lemma opened_sent out : Forall (λ ev, ∀ f, ev ≠ Opened f) out → opened out = [].
Proof.
  induction 1 as [|ev out Hev _ IH]; [done|]. unfold opened in *. cbn [omap list_omap].
  destruct ev as [call|f]; [done|]. by destruct (Hev f).
Qed.

Lemma apply_document_opens_nothing host language h :
  opened (apply_document host language h).2 = [].
Proof.
  apply opened_sent. revert h. change (emits (λ ev, ∀ f, ev ≠ Opened f)
                                         (apply_document host language)).
  unfold apply_document.
  apply emits_bind; [by apply emits_select_lexer|intros _].
  apply emits_bind; [by apply emits_set_properties|intros _].
  apply emits_bind; [by apply emits_set_keywords|intros _].
  apply emits_bind; [by apply emits_allocate_identifiers|intros substyleStartMap].
  apply emits_bind; [by apply emits_register_comments|intros _].
  apply emits_lift.
Qed.

Lemma apply_layer_opened host lang path styleMapping h :
  opened (apply_layer host lang path styleMapping h).2 = [language_file host lang path].
Proof.
  rewrite apply_layer_content.
  destruct (disk host (language_file host lang path)) as [| |language]; try done.
  pose proof (apply_document_opens_nothing host language
                (h ++ [Opened (language_file host lang path)])) as Hnone.
  destruct (apply_document host language _) as [[m|e] out];
    cbn [snd opened omap list_omap] in *; unfold opened in Hnone; by rewrite Hnone.
Qed.

Lemma layers_opened host lang paths styleMapping h :
  opened (for_each (λ st path, apply_layer host lang path st) paths styleMapping h).2
    `prefix_of` language_file host lang <$> paths ∧
  (¬ is_Throw (for_each (λ st path, apply_layer host lang path st) paths styleMapping h).1 →
   opened (for_each (λ st path, apply_layer host lang path st) paths styleMapping h).2 =
     language_file host lang <$> paths).
Proof.
  revert styleMapping h. induction paths as [|path paths IH]; intros st h.
  - by split.
  - cbn [for_each]. rewrite bind_run.
    pose proof (apply_layer_opened host lang path st h) as Hlayer.
    destruct (apply_layer host lang path st h) as [[st'|e] o1]; cbn [snd] in Hlayer.
    + destruct (IH st' (h ++ o1)) as [Hprefix Hall].
      destruct (for_each (M:=EditorM) _ paths st' (h ++ o1)) as [r o2].
      cbn [fst snd] in *. unfold opened in *. rewrite omap_app, Hlayer. cbn [fmap list_fmap app].
      split; [by apply prefix_cons|]. intros Hok. by rewrite Hall.
    + cbn [fst snd fmap list_fmap]. rewrite Hlayer.
      split; [|intros Hok; exfalso; apply Hok; exact I].
      apply prefix_cons, prefix_nil.
Qed.

(** X8. [ApplyLanguage] opens no file but the language's document of each
    layer, in layer order and each at most once: the files it opened are the
    first ones of that list, and all four when it returns a map. *)
Theorem ApplyLanguage_opens (host : Host) (lang : string) (h : list Event) :
  opened (ApplyLanguage host lang h).2
    `prefix_of` language_file host lang <$> data_directories host ∧
  (∀ m, (ApplyLanguage host lang h).1 = Ok m →
        opened (ApplyLanguage host lang h).2 =
          language_file host lang <$> data_directories host).
Proof.
  rewrite ApplyLanguage_run. cbn [fst snd opened omap list_omap].
  destruct (layers_opened host lang (data_directories host) ∅
              (h ++ [Sent SCI_FREESUBSTYLES])) as [Hprefix Hall].
  split; [done|]. intros m Hm. apply Hall. cbn [fst] in Hm. rewrite Hm. tauto.
Qed.

(** ** The exceptions that leave *)

Lemma converts_decode_vector items rhs : converts (decode_vector items rhs).
Proof.
  revert rhs. induction items as [|item items IH]; intros rhs; [apply converts_Ok|].
  cbn [decode_vector]. apply converts_bind; [apply converts_as_string|intros s]. apply IH.
Qed.

Lemma converts_decode_entry language : converts (decode_entry language).
Proof.
  unfold decode_entry.
  apply converts_bind; [apply converts_as_string|intros name].
  apply converts_bind;
    [apply converts_bind; [apply converts_subscript|intros; apply converts_as_string]|
     intros menuitem].
  apply converts_bind; [|intros; apply converts_Ok].
  apply converts_bind; [apply converts_subscript|intros n].
  unfold as_vector_string. repeat case_match; try apply converts_decode_vector;
    intros e [= <-]; by split.
Qed.

Lemma conversion_exception e :
  representation e →
  e = InvalidNode ∨ e = BadSubscript ∨ ∃ T, e = TypedBadConversion T.
Proof. intros [? ?]. destruct e; eauto; done. Qed.

Lemma load_entries_raise languages c e :
  (for_each load_entry languages () c).1 = Throw e →
  representation e ∧
  ∃ language c', language ∈ languages ∧ (load_entry () language c').1 = Throw e.
Proof.
  revert c. induction languages as [|language languages IH]; intros c; [done|].
  cbn [for_each]. unfold mbind at 1, CatalogM_bind.
  pose proof (load_entry_run language c) as Hrun.
  pose proof (converts_decode_entry language) as Hentry.
  destruct (decode_entry language) as [entry|e'].
  - rewrite Hrun. intros (Hrep & language' & c' & Hin & Hthrow)%IH.
    split; [done|]. exists language', c'. split; [by apply list_elem_of_further|done].
  - rewrite Hrun. intros [= <-]. split; [by apply Hentry|].
    exists language, c. split; [apply list_elem_of_here|by rewrite Hrun].
Qed.

Lemma load_layer_raises host path c e :
  (load_layer host path () c).1 = Throw e →
  e ≠ BadFile ∧
  (e = ParserException → disk host (catalog_file host path) = Malformed) ∧
  (e ≠ ParserException →
   ∃ languages language c',
     disk host (catalog_file host path) = Document languages ∧
     language ∈ iterate (Some languages) ∧
     (load_entry () language c').1 = Throw e).
Proof.
  unfold load_layer, _LoadLanguages, YAML_LoadFile.
  cbn [try_catch CatalogM_try lift]. unfold mbind at 1, CatalogM_bind.
  destruct (disk host (catalog_file host path)) as [| |languages]; try done.
  - cbn. intros [= <-]. by repeat split.
  - pose proof (load_entries_raise (iterate (Some languages)) c) as Hloop.
    destruct (for_each load_entry _ () c) as [[[]|e'] c']; [done|]. cbn [fst] in Hloop.
    destruct (Hloop e' eq_refl) as ([HnotBad HnotParser] & language & c0 & Hin & Hthrow).
    rewrite bool_decide_eq_false_2 by done. intros [= <-].
    split; [done|]. split; [done|]. intros _. by exists languages, language, c0.
Qed.

Lemma layers_raise host lang paths styleMapping h e :
  (for_each (λ st path, apply_layer host lang path st) paths styleMapping h).1 = Throw e →
  e ≠ BadFile ∧
  (e = ParserException →
   ∃ path, path ∈ paths ∧ disk host (language_file host lang path) = Malformed) ∧
  (e ≠ ParserException →
   ∃ path language h',
     path ∈ paths ∧ disk host (language_file host lang path) = Document language ∧
     (apply_document host language h').1 = Throw e).
Proof.
  revert styleMapping h. induction paths as [|path paths IH]; intros st h; [done|].
  cbn [for_each]. rewrite bind_run, apply_layer_content.
  assert (∀ st' o1,
    (let '(r, out') :=
       for_each (λ st path, apply_layer host lang path st) paths st' (h ++ o1)
     in (r, o1 ++ out')).1 = Throw e →
    e ≠ BadFile ∧
    (e = ParserException →
     ∃ p, p ∈ path :: paths ∧ disk host (language_file host lang p) = Malformed) ∧
    (e ≠ ParserException →
     ∃ p language h',
       p ∈ path :: paths ∧ disk host (language_file host lang p) = Document language ∧
       (apply_document host language h').1 = Throw e))
    as Hrest.
  { intros st' o1. specialize (IH st' (h ++ o1)).
    destruct (for_each (M:=EditorM) _ paths st' (h ++ o1)) as [r o2]. cbn [fst] in *.
    intros Hr. destruct (IH Hr) as (? & Hparser & Hother). split; [done|]. split.
    - intros He. destruct (Hparser He) as (p & Hp & Hdisk).
      exists p. split; [by apply list_elem_of_further|done].
    - intros He. destruct (Hother He) as (p & language & h' & Hp & Hdisk & Hthrow).
      exists p, language, h'. split; [by apply list_elem_of_further|done]. }
  destruct (disk host (language_file host lang path)) as [| |language] eqn:Hdisk.
  - apply Hrest.
  - intros [= <-]. split; [done|]. split; [|done]. intros _. exists path.
    split; [apply list_elem_of_here|done].
  - pose proof (raises_apply_document host language
                  (h ++ [Opened (language_file host lang path)])) as Hraises.
    destruct (apply_document host language (h ++ [Opened (language_file host lang path)]))
      as [[m|e'] out] eqn:Hdoc; [apply Hrest|].
    cbn [fst] in *. intros [= <-]. destruct (Hraises e' eq_refl) as [? ?].
    split; [done|]. split; [done|]. intros _.
    exists path, language, (h ++ [Opened (language_file host lang path)]).
    split; [apply list_elem_of_here|]. split; [done|]. by rewrite Hdoc.
Qed.

(** X9. [YAML::BadFile] never leaves [ApplyLanguage] or [LoadLanguages],
    and [YAML::ParserException] leaves only when the document of one of the
    layers is there and does not parse. Every other exception that leaves
    is the exception of a conversion or a lookup ([InvalidNode],
    [BadSubscript] or a bad conversion) and comes from the content of a
    document that was loaded: of a layer's language document, as what
    [_ApplyLanguage] does with it raises it; of an entry of a layer's
    catalog document, as the body of the loop of [_LoadLanguages] raises it
    on that entry. *)
Theorem exceptions_that_leave (host : Host) (lang : string) (h : list Event)
    (c : Catalog) (e : Exception) :
  ((ApplyLanguage host lang h).1 = Throw e →
   e ≠ BadFile ∧
   (e = ParserException →
    ∃ path, path ∈ data_directories host ∧
            disk host (language_file host lang path) = Malformed) ∧
   (e ≠ ParserException →
    (e = InvalidNode ∨ e = BadSubscript ∨ ∃ T, e = TypedBadConversion T) ∧
    ∃ path language h',
      path ∈ data_directories host ∧
      disk host (language_file host lang path) = Document language ∧
      (apply_document host language h').1 = Throw e)) ∧
  ((LoadLanguages host c).1 = Throw e →
   e ≠ BadFile ∧
   (e = ParserException →
    ∃ path, path ∈ data_directories host ∧
            disk host (catalog_file host path) = Malformed) ∧
   (e ≠ ParserException →
    (e = InvalidNode ∨ e = BadSubscript ∨ ∃ T, e = TypedBadConversion T) ∧
    ∃ path languages language c',
      path ∈ data_directories host ∧
      disk host (catalog_file host path) = Document languages ∧
      language ∈ iterate (Some languages) ∧
      (load_entry () language c').1 = Throw e)).
Proof.
  split.
  - rewrite ApplyLanguage_run. cbn [fst].
    intros (HnotBad & Hparser & Hother)%layers_raise.
    split; [done|]. split; [done|]. intros He. split; [|by apply Hother].
    by apply conversion_exception.
  - unfold LoadLanguages, DoInAllDataDirectories, mbind, CatalogM_bind, data_directories.
    cbn [fmap list_fmap].
    assert (∀ path c', path ∈ data_directories host →
      (load_layer host path () c').1 = Throw e →
      e ≠ BadFile ∧
      (e = ParserException →
       ∃ p, p ∈ data_directories host ∧ disk host (catalog_file host p) = Malformed) ∧
      (e ≠ ParserException →
       (e = InvalidNode ∨ e = BadSubscript ∨ ∃ T, e = TypedBadConversion T) ∧
       ∃ p languages language c0,
         p ∈ data_directories host ∧
         disk host (catalog_file host p) = Document languages ∧
         language ∈ iterate (Some languages) ∧
         (load_entry () language c0).1 = Throw e))
      as Hlayer.
    { intros path c' Hin Hthrow.
      apply load_layer_raises in Hthrow as (HnotBad & Hparser & Hother).
      split; [done|]. split.
      - intros He. exists path. split; [done|]. by apply Hparser.
      - intros He. split; [by apply conversion_exception|].
        destruct (Hother He) as (languages & language & c0 & ? & ? & ?).
        by exists path, languages, language, c0. }
    unfold data_directories in Hlayer. cbn [fmap list_fmap] in Hlayer.
    destruct (load_layer host (find_directory host B_SYSTEM_DATA_DIRECTORY) () c)
      as [[[]|?] c1] eqn:H1;
      [|intros [= ->]; eapply Hlayer; [|by rewrite H1]; set_solver].
    destruct (load_layer host (find_directory host B_USER_DATA_DIRECTORY) () c1)
      as [[[]|?] c2] eqn:H2;
      [|intros [= ->]; eapply Hlayer; [|by rewrite H2]; set_solver].
    destruct (load_layer host (find_directory host B_SYSTEM_NONPACKAGED_DATA_DIRECTORY) () c2)
      as [[[]|?] c3] eqn:H3;
      [|intros [= ->]; eapply Hlayer; [|by rewrite H3]; set_solver].
    intros Hthrow. eapply Hlayer; [|exact Hthrow]. set_solver.
Qed.

(** * More about one document *)

(** ** Identifier groups *)

Lemma set_identifiers_loop host start items texts i h :
  Forall2 (λ item text, as_string (Some item) = Ok text) items texts →
  for_each (λ i idents,
      text ← lift (as_string (Some idents));
      perform host (SCI_SETIDENTIFIERS (start + i) text);;
      mret (i + 1)) items i h =
  (Ok (i + Z.of_nat (length items)),
   imap (λ j text, Sent (SCI_SETIDENTIFIERS (start + i + Z.of_nat j) text)) texts).
Proof.
  intros Hall. revert i h. induction Hall as [|item text items texts Htext _ IH]; intros i h.
  - cbn [for_each length imap]. by rewrite Nat2Z.inj_0, Z.add_0_r.
  - cbn [for_each]. erewrite bind_Ok_run; cycle 1.
    { rewrite (bind_lift_Ok _ _ _ _ Htext). rewrite bind_run. cbn [perform]. reflexivity. }
    rewrite IH. cbn [fst snd app length imap].
    replace (i + 1 + Z.of_nat (length items)) with (i + Z.of_nat (S (length items))) by lia.
    replace (start + i + Z.of_nat 0) with (start + i) by lia.
    do 2 f_equal. apply imap_ext. intros j t _. cbn [compose].
    by replace (start + (i + 1) + Z.of_nat j) with (start + i + Z.of_nat (S j)) by lia.
Qed.

Lemma allocations_none out : Forall (λ ev, ¬ allocation ev) out → allocations out = [].
Proof.
  induction 1 as [|ev out Hev _ IH]; [done|]. unfold allocations in *.
  cbn [omap list_omap]. destruct ev as [[]|]; try done; by destruct Hev.
Qed.

(** X10. An entry of [identifiers] whose value is not a sequence is skipped
    without a call, whatever its key: the key is not even converted. For a
    sequence of strings under an [int] key [c], the editor is asked once
    for as many sub-styles as the group has identifier lists, and the list
    at position [j] is bound to the sub-style id [start + j], where [start]
    is the editor's reply; the reply is recorded for [c] unless a start is
    recorded already. A sequence under a key that is not an [int] ends the
    run with the exception of the conversion before the editor is asked. *)
Theorem identifier_group_binding (host : Host) (substyleStartMap : gmap Z Z)
    (key : Node) (h : list Event) :
  (∀ value, (∀ items, value ≠ Sequence items) →
     allocate_group host substyleStartMap (key, value) h = (Ok substyleStartMap, [])) ∧
  (∀ items c texts,
     as_int host (Some key) = Ok c →
     Forall2 (λ item text, as_string (Some item) = Ok text) items texts →
     allocate_group host substyleStartMap (key, Sequence items) h =
       (Ok (emplace c
              (editor_reply host (calls_of h) (SCI_ALLOCATESUBSTYLES c (length items)))
              substyleStartMap),
        Sent (SCI_ALLOCATESUBSTYLES c (length items)) ::
        identifier_messages
          (editor_reply host (calls_of h) (SCI_ALLOCATESUBSTYLES c (length items)))
          texts)) ∧
  (∀ items e,
     as_int host (Some key) = Throw e →
     allocate_group host substyleStartMap (key, Sequence items) h = (Throw e, [])).
Proof.
  split; [|split].
  - intros value Hvalue. unfold allocate_group. cbn [snd].
    destruct value as [| |items|]; try done. by destruct (Hvalue items).
  - intros items c texts Hkey Htexts. unfold allocate_group. cbn [fst snd].
    rewrite (bind_lift_Ok _ _ _ _ Hkey), bind_run. cbn [perform].
    erewrite bind_Ok_run; cycle 1.
    { unfold set_identifiers. by apply set_identifiers_loop. }
    cbn [fst snd app]. rewrite app_nil_r. unfold identifier_messages. do 2 f_equal.
    apply imap_ext. intros j t _. cbn beta. by rewrite Z.add_0_r.
  - intros items e Hkey. unfold allocate_group. cbn [fst snd].
    by rewrite (bind_lift_Throw _ _ _ _ Hkey).
Qed.

Lemma allocate_group_allocations host ssm id h ssm' out :
  allocate_group host ssm id h = (Ok ssm', out) →
  allocations out = from_option (λ r, [r]) [] (group_request host id).
Proof.
  unfold allocate_group, group_request.
  destruct id.2 as [| |items|]; try by intros [= <- <-].
  destruct (as_int host (Some id.1)) as [c|e];
    [|by rewrite (bind_lift_Throw _ _ _ _ eq_refl)].
  rewrite (bind_lift_Ok _ _ _ _ eq_refl), bind_run. cbn [perform].
  destruct ((set_identifiers host _ items ≫= _) _) as [r o] eqn:Hids.
  intros [= -> <-].
  apply bind_Ok_inv in Hids as (i & o1 & o2 & Hset & [= <- <-] & ->).
  unfold allocations. cbn [app omap list_omap from_option]. f_equal.
  rewrite app_nil_r. apply allocations_none.
  pose proof (emits_set_identifiers host (λ ev, ¬ allocation ev)
    (editor_reply host (calls_of h) (SCI_ALLOCATESUBSTYLES c (length items))) items
    (λ _ _ H, H) (h ++ [Sent (SCI_ALLOCATESUBSTYLES c (length items))])) as Hemit.
  by rewrite Hset in Hemit.
Qed.

Lemma allocate_groups_allocations host pairs ssm h ssm' out :
  for_each (allocate_group host) pairs ssm h = (Ok ssm', out) →
  allocations out = omap (group_request host) pairs.
Proof.
  revert ssm h out. induction pairs as [|id pairs IH]; intros ssm h out.
  - by intros [= <- <-].
  - cbn [for_each]. intros (ssm1 & o1 & o2 & Hgroup & Hrest & ->)%bind_Ok_inv.
    apply allocate_group_allocations in Hgroup. apply IH in Hrest.
    unfold allocations in *. rewrite omap_app, Hgroup, Hrest. cbn [omap list_omap].
    by destruct (group_request host id).
Qed.

(** X11. When the loop over [identifiers] ends without an exception, the
    editor was asked for one allocation per sequence-valued entry, in the
    order of the document and also for a lexical class that is listed
    again; the start recorded for a class is the reply to the first of its
    allocations, and nothing is recorded for a class without one. *)
Theorem identifier_allocations (host : Host) (language : Node) (h : list Event)
    (pairs : list (Node * Node)) (substyleStartMap : gmap Z Z) (out : list Event) :
  subscript (Some language) "identifiers" = Ok (Some (Map pairs)) →
  allocate_identifiers host language h = (Ok substyleStartMap, out) →
  allocations out = omap (group_request host) pairs ∧
  ∀ c, substyleStartMap !! c = first_allocation host c h out.
Proof.
  intros Hsub Hrun. split.
  - unfold allocate_identifiers in Hrun. rewrite (bind_lift_Ok _ _ _ _ Hsub) in Hrun.
    by apply allocate_groups_allocations in Hrun.
  - intros c. by apply (allocate_identifiers_start host language).
Qed.

(** ** Properties and keywords *)

Lemma properties_loop host good settings rest h :
  Forall2 (λ kv s, as_string (Some kv.1) = Ok s.1 ∧ as_string (Some kv.2) = Ok s.2)
    good settings →
  for_each (λ _ property,
      name ← lift (as_string (first property));
      value ← lift (as_string (second property));
      perform host (SCI_SETPROPERTY name value);;
      mret ()) (iterate (Some (Map (good ++ rest)))) () h =
  ((for_each (λ _ property,
      name ← lift (as_string (first property));
      value ← lift (as_string (second property));
      perform host (SCI_SETPROPERTY name value);;
      mret ()) (iterate (Some (Map rest))) () (h ++ property_messages settings)).1,
   property_messages settings ++
   (for_each (λ _ property,
      name ← lift (as_string (first property));
      value ← lift (as_string (second property));
      perform host (SCI_SETPROPERTY name value);;
      mret ()) (iterate (Some (Map rest))) () (h ++ property_messages settings)).2).
Proof.
  intros Hall. revert h.
  induction Hall as [|kv s good settings [Hname Hvalue] _ IH]; intros h.
  - cbn [app property_messages fmap list_fmap]. rewrite app_nil_r.
    by destruct (for_each (M:=EditorM) _ _ _ _).
  - cbn [app iterate fmap list_fmap for_each] in *. erewrite bind_Ok_run; cycle 1.
    { cbn [first second]. rewrite (bind_lift_Ok _ _ _ _ Hname), (bind_lift_Ok _ _ _ _ Hvalue).
      rewrite bind_run. cbn [perform]. reflexivity. }
    rewrite IH. cbn [fst snd app property_messages fmap list_fmap].
    by rewrite <-!app_assoc.
Qed.

(** X12. [properties] that is absent, null or a scalar sends nothing. For a
    map, the entries are sent with [SCI_SETPROPERTY] one by one in document
    order: all of them when all names and values are strings; and when an
    entry is not, the run ends with its exception after the entries before
    it have been sent. *)
Theorem properties_in_order (host : Host) (language : Node) (properties : option Node)
    (h : list Event) :
  subscript (Some language) "properties" = Ok properties →
  ((∀ pairs, properties ≠ Some (Map pairs)) →
   (∀ items, properties ≠ Some (Sequence items)) →
   set_properties host language h = (Ok (), [])) ∧
  (∀ good settings,
     properties = Some (Map good) →
     Forall2 (λ kv s, as_string (Some kv.1) = Ok s.1 ∧ as_string (Some kv.2) = Ok s.2)
       good settings →
     set_properties host language h = (Ok (), property_messages settings)) ∧
  (∀ good bad rest settings e,
     properties = Some (Map (good ++ bad :: rest)) →
     Forall2 (λ kv s, as_string (Some kv.1) = Ok s.1 ∧ as_string (Some kv.2) = Ok s.2)
       good settings →
     (as_string (Some bad.1) ≫= λ _, as_string (Some bad.2)) = Throw e →
     set_properties host language h = (Throw e, property_messages settings)).
Proof.
  intros Hsub. unfold set_properties. rewrite (bind_lift_Ok _ _ _ _ Hsub).
  split; [|split].
  - intros Hmap Hseq. destruct properties as [[| |items|pairs]|]; try done.
    + by destruct (Hseq items).
    + by destruct (Hmap pairs).
  - intros good settings -> Hall.
    rewrite <-(app_nil_r good), (properties_loop host good settings [] h Hall).
    cbn. by rewrite app_nil_r.
  - intros good bad rest settings e -> Hall Hbad.
    rewrite (properties_loop host good settings (bad :: rest) h Hall).
    cbn [iterate fmap list_fmap for_each first second]. rewrite bind_run.
    destruct (as_string (Some bad.1)) as [name|e1]; cbn in Hbad.
    + rewrite (bind_lift_Ok _ _ _ _ eq_refl), (bind_lift_Throw _ _ _ _ Hbad).
      cbn. by rewrite app_nil_r.
    + injection Hbad as ->. rewrite (bind_lift_Throw _ _ _ _ eq_refl).
      cbn. by rewrite app_nil_r.
Qed.

Lemma keywords_loop host good settings rest h :
  Forall2 (λ kv s, as_int host (Some kv.1) = Ok s.1 ∧ as_string (Some kv.2) = Ok s.2)
    good settings →
  for_each (λ _ keyword,
      num ← lift (as_int host (first keyword));
      words ← lift (as_string (second keyword));
      perform host (SCI_SETKEYWORDS num words);;
      mret ()) (iterate (Some (Map (good ++ rest)))) () h =
  ((for_each (λ _ keyword,
      num ← lift (as_int host (first keyword));
      words ← lift (as_string (second keyword));
      perform host (SCI_SETKEYWORDS num words);;
      mret ()) (iterate (Some (Map rest))) () (h ++ keyword_messages settings)).1,
   keyword_messages settings ++
   (for_each (λ _ keyword,
      num ← lift (as_int host (first keyword));
      words ← lift (as_string (second keyword));
      perform host (SCI_SETKEYWORDS num words);;
      mret ()) (iterate (Some (Map rest))) () (h ++ keyword_messages settings)).2).
Proof.
  intros Hall. revert h.
  induction Hall as [|kv s good settings [Hnum Hwords] _ IH]; intros h.
  - cbn [app keyword_messages fmap list_fmap]. rewrite app_nil_r.
    by destruct (for_each (M:=EditorM) _ _ _ _).
  - cbn [app iterate fmap list_fmap for_each] in *. erewrite bind_Ok_run; cycle 1.
    { cbn [first second]. rewrite (bind_lift_Ok _ _ _ _ Hnum), (bind_lift_Ok _ _ _ _ Hwords).
      rewrite bind_run. cbn [perform]. reflexivity. }
    rewrite IH. cbn [fst snd app keyword_messages fmap list_fmap].
    by rewrite <-!app_assoc.
Qed.

(** X13. [keywords] that is absent, null or a scalar sends nothing. For a
    map, the word lists are sent with [SCI_SETKEYWORDS] one by one in
    document order: all of them when every key is an [int] and every value
    a string; and when an entry is not, the run ends with its exception
    after the entries before it have been sent. *)
Theorem keywords_in_order (host : Host) (language : Node) (keywords : option Node)
    (h : list Event) :
  subscript (Some language) "keywords" = Ok keywords →
  ((∀ pairs, keywords ≠ Some (Map pairs)) →
   (∀ items, keywords ≠ Some (Sequence items)) →
   set_keywords host language h = (Ok (), [])) ∧
  (∀ good settings,
     keywords = Some (Map good) →
     Forall2 (λ kv s, as_int host (Some kv.1) = Ok s.1 ∧ as_string (Some kv.2) = Ok s.2)
       good settings →
     set_keywords host language h = (Ok (), keyword_messages settings)) ∧
  (∀ good bad rest settings e,
     keywords = Some (Map (good ++ bad :: rest)) →
     Forall2 (λ kv s, as_int host (Some kv.1) = Ok s.1 ∧ as_string (Some kv.2) = Ok s.2)
       good settings →
     (as_int host (Some bad.1) ≫= λ _, as_string (Some bad.2)) = Throw e →
     set_keywords host language h = (Throw e, keyword_messages settings)).
Proof.
  intros Hsub. unfold set_keywords. rewrite (bind_lift_Ok _ _ _ _ Hsub).
  split; [|split].
  - intros Hmap Hseq. destruct keywords as [[| |items|pairs]|]; try done.
    + by destruct (Hseq items).
    + by destruct (Hmap pairs).
  - intros good settings -> Hall.
    rewrite <-(app_nil_r good), (keywords_loop host good settings [] h Hall).
    cbn. by rewrite app_nil_r.
  - intros good bad rest settings e -> Hall Hbad.
    rewrite (keywords_loop host good settings (bad :: rest) h Hall).
    cbn [iterate fmap list_fmap for_each first second]. rewrite bind_run.
    destruct (as_int host (Some bad.1)) as [num|e1]; cbn in Hbad.
    + rewrite (bind_lift_Ok _ _ _ _ eq_refl), (bind_lift_Throw _ _ _ _ Hbad).
      cbn. by rewrite app_nil_r.
    + injection Hbad as ->. rewrite (bind_lift_Throw _ _ _ _ eq_refl).
      cbn. by rewrite app_nil_r.
Qed.

(** * External lexers *)

Lemma loader_bind {A B} (m : LoaderM A) (f : A → LoaderM B) :
  m ≫= f = ((f m.1).1, m.2 ++ (f m.1).2).
Proof. unfold mbind, LoaderM_bind. by destruct (f m.1). Qed.

Lemma load_lexers_loop entries :
  for_each load_lexer entries () =
  ((), GetPath <$> filter (λ e, IsDirectory e = false) entries).
Proof.
  induction entries as [|lexerEntry entries IH]; [done|].
  cbn [for_each]. rewrite loader_bind, filter_cons.
  assert (load_lexer () lexerEntry =
          ((), if IsDirectory lexerEntry then [] else [GetPath lexerEntry])) as ->
    by (unfold load_lexer; by destruct (IsDirectory lexerEntry)).
  cbn [fst snd]. rewrite IH. cbn [fst snd].
  destruct (IsDirectory lexerEntry);
    [rewrite decide_False by done|rewrite decide_True by done]; done.
Qed.

Lemma _LoadExternalLexers_run storage path :
  _LoadExternalLexers storage path = ((), layer_lexers storage path).
Proof.
  unfold _LoadExternalLexers, layer_lexers.
  destruct (storage _) as [entries|]; [apply load_lexers_loop|done].
Qed.

(** X14. [LoadExternalLexers] sends [SCI_LOADLEXERLIBRARY] for the entries
    of [scintilla/lexers] of each layer, in layer order and in the order
    the directory lists them, but never for an entry that is a directory;
    a layer whose [scintilla/lexers] cannot be opened sends nothing. So a
    path is loaded exactly when some layer lists it as an entry that is not
    a directory. *)
Theorem LoadExternalLexers_loads (host : Host) (storage : Storage) :
  (LoadExternalLexers host storage).2 = data_directories host ≫= layer_lexers storage ∧
  ∀ lexerPath,
    lexerPath ∈ (LoadExternalLexers host storage).2 ↔
    ∃ path entries lexerEntry,
      path ∈ data_directories host ∧
      storage (Append (Append path "scintilla") "lexers") = Some entries ∧
      lexerEntry ∈ entries ∧ IsDirectory lexerEntry = false ∧
      GetPath lexerEntry = lexerPath.
Proof.
  assert ((LoadExternalLexers host storage).2 =
          data_directories host ≫= layer_lexers storage) as Hrun.
  { unfold LoadExternalLexers, DoInAllDataDirectories, data_directories.
    rewrite !loader_bind, !_LoadExternalLexers_run.
    cbn [fst snd fmap list_fmap mbind list_bind]. by rewrite <-?app_assoc, app_nil_r. }
  split; [done|]. intros lexerPath. rewrite Hrun, list_elem_of_bind. split.
  - intros (path & Hlexer & Hpath). unfold layer_lexers in Hlexer.
    destruct (storage _) as [entries|] eqn:Hstorage; [|by apply elem_of_nil in Hlexer].
    apply list_elem_of_fmap in Hlexer as (lexerEntry & -> & [Hfile Hentry]%list_elem_of_filter).
    by exists path, entries, lexerEntry.
  - intros (path & entries & lexerEntry & Hpath & Hstorage & Hentry & Hfile & <-).
    exists path. split; [|done]. unfold layer_lexers. rewrite Hstorage.
    apply list_elem_of_fmap. exists lexerEntry. split; [done|].
    by apply list_elem_of_filter.
Qed.

(** * The further theorems at concrete inputs *)

Lemma ApplyLanguage_no_documents_witness :
  ApplyLanguage (host_with []) "cpp" [] =
  (Ok ∅,
   Sent SCI_FREESUBSTYLES ::
   ((λ path, Opened (language_file (host_with []) "cpp" path)) <$>
      data_directories (host_with []))).
Proof.
  apply (ApplyLanguage_no_documents (host_with []) "cpp" []). intros path _. reflexivity.
Defined.

Lemma ApplyLanguage_single_layer_witness :
  ApplyLanguage layered_single "cpp" [] =
  match
    apply_document layered_single scenario_document
      ([] ++ Sent SCI_FREESUBSTYLES ::
         ((λ p, Opened (language_file layered_single "cpp" p)) <$>
            ["/system/data"] ++ ["/home/config/data"]))
  with
  | (Ok m, out) =>
      (Ok m,
       Sent SCI_FREESUBSTYLES ::
       ((λ p, Opened (language_file layered_single "cpp" p)) <$>
          ["/system/data"] ++ ["/home/config/data"]) ++ out ++
       ((λ p, Opened (language_file layered_single "cpp" p)) <$>
          ["/system/non-packaged/data"; "/home/config/non-packaged/data"]))
  | (Throw e, out) =>
      (Throw e,
       Sent SCI_FREESUBSTYLES ::
       ((λ p, Opened (language_file layered_single "cpp" p)) <$>
          ["/system/data"] ++ ["/home/config/data"]) ++ out)
  end.
Proof.
  apply (ApplyLanguage_single_layer layered_single "cpp" [] ["/system/data"]
           ["/system/non-packaged/data"; "/home/config/non-packaged/data"]
           "/home/config/data" scenario_document).
  - reflexivity.
  - intros p Hp. cbn [app] in Hp.
    repeat (apply elem_of_cons in Hp as [->|Hp]); [reflexivity..|by apply elem_of_nil in Hp].
  - reflexivity.
Defined.

Lemma exceptions_that_leave_witness :
  (InvalidNode ≠ BadFile ∧
   (InvalidNode = InvalidNode ∨ InvalidNode = BadSubscript ∨
    ∃ T, InvalidNode = TypedBadConversion T) ∧
   ∃ path language h',
     path ∈ data_directories short_block_host ∧
     disk short_block_host (language_file short_block_host "cpp" path) =
       Document language ∧
     (apply_document short_block_host language h').1 = Throw InvalidNode) ∧
  (ParserException ≠ BadFile ∧
   ∃ path, path ∈ data_directories malformed_host ∧
           disk malformed_host (catalog_file malformed_host path) = Malformed).
Proof.
  destruct (exceptions_that_leave short_block_host "cpp" [] empty_catalog InvalidNode)
    as [Happly _].
  destruct (exceptions_that_leave malformed_host "cpp" [] empty_catalog ParserException)
    as [_ Hload].
  split.
  - destruct Happly as (HnotBad & _ & Hother); [vm_compute; reflexivity|].
    split; [exact HnotBad|]. apply Hother. discriminate.
  - destruct Hload as (HnotBad & Hparser & _); [vm_compute; reflexivity|].
    split; [exact HnotBad|]. apply Hparser. reflexivity.
Defined.

Lemma identifier_group_binding_witness :
  allocate_group (host_with []) ∅ (str "20", str "a b") [] = (Ok ∅, []) ∧
  allocate_group (host_with []) ∅ (str "20", Sequence [str "a"; str "b"]) [] =
    (Ok (emplace 20
           (editor_reply (host_with []) (calls_of [])
              (SCI_ALLOCATESUBSTYLES 20 (length [str "a"; str "b"])))
           ∅),
     Sent (SCI_ALLOCATESUBSTYLES 20 (length [str "a"; str "b"])) ::
     identifier_messages
       (editor_reply (host_with []) (calls_of [])
          (SCI_ALLOCATESUBSTYLES 20 (length [str "a"; str "b"]))) ["a"; "b"]).
Proof.
  destruct (identifier_group_binding (host_with []) ∅ (str "20") [])
    as (Hskip & Hgroup & _).
  split.
  - apply Hskip. intros items. discriminate.
  - apply (Hgroup [str "a"; str "b"] 20 ["a"; "b"]).
    + reflexivity.
    + repeat constructor.
Defined.

Lemma identifier_allocations_witness :
  allocations (allocate_identifiers scenario_host scenario_document []).2 =
    omap (group_request scenario_host) [(str "20", Sequence [str "a"; str "b"])] ∧
  ∀ c, ({[20 := 128]} : gmap Z Z) !! c =
       first_allocation scenario_host c []
         (allocate_identifiers scenario_host scenario_document []).2.
Proof.
  apply (identifier_allocations scenario_host scenario_document []).
  - reflexivity.
  - vm_compute. reflexivity.
Defined.

Lemma properties_in_order_witness :
  set_properties (host_with []) settings_document [] =
  (Ok (), property_messages [("fold", "1"); ("fold.comment", "1")]).
Proof.
  eapply (properties_in_order (host_with []) settings_document _ []).
  - reflexivity.
  - reflexivity.
  - repeat constructor.
Defined.

Lemma keywords_in_order_witness :
  set_keywords (host_with []) settings_document [] =
  (Ok (), keyword_messages [(0, "if else while"); (1, "int char")]).
Proof.
  eapply (keywords_in_order (host_with []) settings_document _ []).
  - reflexivity.
  - reflexivity.
  - repeat constructor.
Defined.
